(** * SourcePawn language support: symbol repository and queries

    A shallow embedding of the completion repository
    (CompletionRepository, FileCompletions and the Completion classes), of
    the define extractor readDefine and of the position queries getLastFunc
    and getCompletionListFromPosition, together with the properties of
    these functions.

    JavaScript strings are modelled in two ways: names and file identities,
    which the code only compares and uses as map keys, are [string]; lines
    of text that are scanned by index are [list ascii], one element per
    code unit (code units above 255 are outside the model). *)

From Stdlib Require Import Ascii.
From stdpp Require Import gmap strings list fin_maps relations.

Local Open Scope string_scope.
Local Open Scope list_scope.
Local Open Scope nat_scope.

Set Warnings "-abstract-large-number".

(** ** vscode data types *)

(** CompletionItemKind: the enumeration of the language-server protocol
    (the constructors carry a K, several of the names being reserved). *)
Inductive CompletionItemKind :=
  | KText | KMethod | KFunction | KConstructor | KField | KVariable | KClass
  | KInterface | KModule | KProperty | KUnit | KValue | KEnum | KKeyword
  | KSnippet | KColor | KFile | KReference | KFolder | KEnumMember
  | KConstant | KStruct | KEvent | KOperator | KTypeParameter | KUser.

Global Instance CompletionItemKind_eq_dec : EqDecision CompletionItemKind.
Proof. solve_decision. Defined.

(** vscode.CompletionItem, with the fields the repository fills in; an
    absent optional field is [None]. *)
Record CompletionItem := {
  label : string;
  kind : CompletionItemKind;
  detail : option string;
  insertText : option string;
  filterText : option string
}.

(** An item with a label and a kind only. *)
Definition plain_item (l : string) (k : CompletionItemKind) : CompletionItem :=
  {| label := l; kind := k; detail := None; insertText := None;
     filterText := None |}.

Global Instance CompletionItem_eq_dec : EqDecision CompletionItem.
Proof. solve_decision. Defined.

Record FunctionParam := {
  param_label : string;
  param_documentation : string
}.

Record SignatureInformation := {
  sig_label : string;
  sig_documentation : string;
  sig_parameters : list FunctionParam
}.

Record SignatureHelp := {
  signatures : list (option SignatureInformation);
  activeSignature : nat;
  activeParameter : nat
}.

(** ** JavaScript text *)

(** The character class [A-Za-z0-9_] (also the class of \b and \w). *)
Definition is_word (c : ascii) : bool :=
  let n := nat_of_ascii c in
  (48 <=? n) && (n <=? 57) || (65 <=? n) && (n <=? 90) ||
  (97 <=? n) && (n <=? 122) || (n =? 95).

(** White space of trim and trimEnd, among the code units below 256:
    tab, line feed, vertical tab, form feed, carriage return, space and
    no-break space. *)
Definition is_white_space (c : ascii) : bool :=
  let n := nat_of_ascii c in
  (9 <=? n) && (n <=? 13) || (n =? 32) || (n =? 160).

(** Line terminators, which the dot of a regular expression refuses. *)
Definition is_line_terminator (c : ascii) : bool :=
  let n := nat_of_ascii c in (n =? 10) || (n =? 13).

Fixpoint trimStart (s : list ascii) : list ascii :=
  match s with
  | c :: s' => if is_white_space c then trimStart s' else s
  | [] => []
  end.

Definition trimEnd (s : list ascii) : list ascii :=
  reverse (trimStart (reverse s)).

Definition trim (s : list ascii) : list ascii := trimEnd (trimStart s).

(** s.split("\n") *)
Fixpoint split_newline (s : list ascii) : list (list ascii) :=
  match s with
  | [] => [[]]
  | c :: s' =>
      if bool_decide (c = "010"%char) then [] :: split_newline s'
      else match split_newline s' with
           | l :: ls => (c :: l) :: ls
           | [] => [[c]]
           end
  end.

(** s.slice(i) and s.slice(i, j) for indices that are not negative. *)
Definition slice_from (i : nat) (s : list ascii) : list ascii := drop i s.
Definition slice (i j : nat) (s : list ascii) : list ascii :=
  take (j - i) (drop i s).

(** What a call does: it returns, it throws, or (for the recursive
    traversals, which carry a depth budget) it is still running when the
    budget is spent. *)
Inductive outcome (A : Type) :=
  | Return (a : A)
  | Throw
  | NoFuel.
Arguments Return {A} a.
Arguments Throw {A}.
Arguments NoFuel {A}.

Record Position := {
  line : nat;
  character : nat
}.

(** A text document of the editor: its identity, in the two forms the
    code uses, and its text. *)
Record TextDocument := {
  doc_uri : string;
  doc_fsPath : string;
  getText : list ascii
}.

(** A loop body run over a list, threading a state; [None] propagates. *)
Fixpoint for_each {A S : Type} (body : S → A → option S) (l : list A) (s : S)
  : option S :=
  match l with
  | [] => Some s
  | x :: l' =>
      match body s x with
      | Some s' => for_each body l' s'
      | None => None
      end
  end.

(** ** The completion repository *)

Module Repository.

(** The classes that implement the Completion interface. *)
Inductive Completion :=
  | FunctionCompletion (name detail description : string)
      (params : list FunctionParam)
  | MethodCompletion (method_map name detail description : string)
      (params : list FunctionParam)
  | DefineCompletion (name : string)
  | VariableCompletion (name file : string)
  | EnumCompletion (name file : string)
  | EnumMemberCompletion (name file : string) (enum_name enum_file : string).

Definition name (c : Completion) : string :=
  match c with
  | FunctionCompletion n _ _ _ => n
  | MethodCompletion _ n _ _ _ => n
  | DefineCompletion n => n
  | VariableCompletion n _ => n
  | EnumCompletion n _ => n
  | EnumMemberCompletion n _ _ _ => n
  end.

Definition completion_kind (c : Completion) : CompletionItemKind :=
  match c with
  | FunctionCompletion _ _ _ _ => KFunction
  | MethodCompletion _ _ _ _ _ => KMethod
  | DefineCompletion _ => KVariable
  | VariableCompletion _ _ => KVariable
  | EnumCompletion _ _ => KEnum
  | EnumMemberCompletion _ _ _ _ => KEnumMember
  end.

Definition to_completion_item (c : Completion) (file : string)
  : CompletionItem :=
  match c with
  | FunctionCompletion n _ d _ =>
      {| label := n; kind := KFunction; detail := Some d;
         insertText := None; filterText := None |}
  | MethodCompletion mm n _ d _ =>
      {| label := mm +:+ "." +:+ n; kind := KMethod; detail := Some d;
         insertText := Some n; filterText := Some n |}
  | DefineCompletion n => plain_item n KVariable
  | VariableCompletion n f =>
      (* Only return variables local to the document being edited *)
      if bool_decide (file = f) then plain_item n KVariable
      else plain_item "" KVariable
  | EnumCompletion n _ => plain_item n KEnum
  | EnumMemberCompletion n _ _ _ => plain_item n KEnumMember
  end.

Definition get_signature (c : Completion) : option SignatureInformation :=
  match c with
  | FunctionCompletion _ dt d ps
  | MethodCompletion _ _ dt d ps =>
      Some {| sig_label := dt; sig_documentation := d; sig_parameters := ps |}
  | _ => None
  end.

Record Include := {
  uri : string;
  IsBuiltIn : bool
}.

(** FileCompletions: [completions] is a JavaScript Map, kept as an
    association list in insertion order. *)
Record FileCompletions := {
  completions : list (string * Completion);
  includes : list Include;
  file_uri : string
}.

Definition new_FileCompletions (u : string) : FileCompletions :=
  {| completions := []; includes := []; file_uri := u |}.

(** Map.prototype.set: an existing key keeps its place. *)
Fixpoint map_set {V : Type} (k : string) (v : V) (m : list (string * V))
  : list (string * V) :=
  match m with
  | [] => [(k, v)]
  | (k', v') :: m' =>
      if bool_decide (k' = k) then (k, v) :: m' else (k', v') :: map_set k v m'
  end.

Definition add (id : string) (c : Completion) (fc : FileCompletions)
  : FileCompletions :=
  {| completions := map_set id c (completions fc);
     includes := includes fc; file_uri := file_uri fc |}.

Definition add_include (include : string) (b : bool) (fc : FileCompletions)
  : FileCompletions :=
  {| completions := completions fc;
     includes := includes fc ++ [{| uri := include; IsBuiltIn := b |}];
     file_uri := file_uri fc |}.

Definition file_get_completions (fc : FileCompletions) : list Completion :=
  (completions fc).*2.

(** CompletionRepository.completions : Map<string, FileCompletions>. *)
Abbreviation Repo := (gmap string FileCompletions).

(** Set<string>.add on an insertion-ordered set. *)
Definition set_add (x : string) (s : list string) : list string :=
  if bool_decide (x ∈ s) then s else s ++ [x].

Section WithRepo.

Variable repo : Repo.

(** One iteration of the loop of get_included_files; [rec] is the
    recursive call. *)
Definition visit_include (rec : list Include → list string → option (list string))
    (files : list string) (include : Include) : option (list string) :=
  if bool_decide (uri include ∈ files) then Some files
  else
    let files := files ++ [uri include] in
    match repo !! uri include with
    | Some include_completions => rec (includes include_completions) files
    | None => Some files
    end.

(** get_included_files(completions, files): [fuel] bounds the depth of the
    recursion; the result is the final content of [files]. *)
Fixpoint get_included_files (fuel : nat) (incs : list Include)
    (files : list string) : option (list string) :=
  match fuel with
  | 0 => None
  | S fuel' => for_each (visit_include (get_included_files fuel')) incs files
  end.

Definition get_file_completions (file : string) : list Completion :=
  match repo !! file with
  | Some file_completions => file_get_completions file_completions
  | None => []
  end.

(** The set of files of get_all_completions, in iteration order. *)
Definition visible_files (fuel : nat) (file : string) : option (list string) :=
  match repo !! file with
  | Some completion =>
      files ← get_included_files fuel (includes completion) [];
      Some (set_add file files)
  | None => Some (set_add file [])
  end.

Definition get_all_completions (fuel : nat) (file : string)
  : option (list Completion) :=
  files ← visible_files fuel file;
  Some (foldl (λ completion file_completions, completion ++ file_completions)
          [] (get_file_completions <$> files)).

End WithRepo.

(** *** Queries of the repository *)

Section Queries.

Variable repo : Repo.

(** The backward scan of get_completions, from index [n - 1] down:
    identifier characters are skipped, and the first other character
    decides. *)
Fixpoint method_scan (line : list ascii) (n : nat) : bool :=
  match n with
  | 0 => false
  | S i =>
      match line !! i with
      | Some c =>
          if is_word c then method_scan line i
          else bool_decide (c = "."%char)
      | None => false
      end
  end.

(** get_completions(document, position). Array.prototype.filter builds a
    new array and leaves its receiver as it is; the two calls below do
    not keep what it returns. *)
Definition get_completions (fuel : nat) (document : TextDocument)
    (position : Position) : outcome (list CompletionItem) :=
  match split_newline (getText document) !! line position with
  | None => Throw
  | Some l =>
      let line := trim l in
      let is_method := method_scan line (length line - 1) in
      match get_all_completions repo fuel (doc_uri document) with
      | None => NoFuel
      | Some all_completions =>
          let items :=
            (λ completion, to_completion_item completion (doc_uri document))
              <$> all_completions in
          if is_method then
            let _ := filter (λ completion, kind completion = KMethod) items in
            Return items
          else
            let _ := filter (λ completion, kind completion ≠ KMethod) items in
            Return items
      end
  end.

(** The loop of provideSignatureHelp, from index [n - 1] down to 0. In
    the second phase line[i] is matched against a regular expression,
    which throws when line[i] is undefined. *)
Fixpoint signature_scan (line : list ascii) (n : nat) (end_parameters : bool)
    (method : list ascii) (parameter_count : nat)
  : outcome (list ascii * nat) :=
  match n with
  | 0 => Return (method, parameter_count)
  | S i =>
      if end_parameters then
        match line !! i with
        | Some c =>
            if is_word c then
              signature_scan line i true (c :: method) parameter_count
            else Return (method, parameter_count)
        | None => Throw
        end
      else if bool_decide (line !! i = Some "("%char) then
        signature_scan line i true method parameter_count
      else if bool_decide (line !! i = Some ","%char) then
        signature_scan line i false method (S parameter_count)
      else signature_scan line i false method parameter_count
  end.

(** The character before the cursor; there is none at column 0. *)
Definition char_before (line : list ascii) (character : nat) : option ascii :=
  match character with
  | 0 => None
  | S k => line !! k
  end.

(** The method name and parameter count of provideSignatureHelp; the name
    is undefined when the call is already closed. *)
Definition signature_target (line : list ascii) (character : nat)
  : outcome (option (list ascii) * nat) :=
  if bool_decide (char_before line character = Some ")"%char) then
    (* We've finished this call *)
    Return (None, 0)
  else
    match signature_scan line (S character) false [] 0 with
    | Return (method, parameter_count) => Return (Some method, parameter_count)
    | Throw => Throw
    | NoFuel => NoFuel
    end.

Definition no_signature : SignatureHelp :=
  {| signatures := []; activeSignature := 0; activeParameter := 0 |}.

Definition provideSignatureHelp (fuel : nat) (document : TextDocument)
    (position : Position) : outcome SignatureHelp :=
  match split_newline (getText document) !! line position with
  | None => Throw
  | Some line =>
      match signature_target line (character position) with
      | Return (method, parameter_count) =>
          match get_all_completions repo fuel (doc_uri document) with
          | None => NoFuel
          | Some all_completions =>
              let completions :=
                filter (λ completion,
                          Some (name completion)
                          = String.string_of_list_ascii <$> method)
                  all_completions in
              match completions with
              | completion :: _ =>
                  Return {| signatures := [get_signature completion];
                            activeParameter := parameter_count;
                            activeSignature := 0 |}
              | [] => Return no_signature
              end
          end
      | Throw => Throw
      | NoFuel => NoFuel
      end
  end.

End Queries.

(** *** Signature help, as the specification describes it *)

(** The identifier characters at the head of a text. *)
Fixpoint leading_word (s : list ascii) : list ascii :=
  match s with
  | c :: s' => if is_word c then c :: leading_word s' else []
  | [] => []
  end.

(** The identifier that ends a text. *)
Definition trailing_identifier (s : list ascii) : list ascii :=
  reverse (leading_word (reverse s)).

Definition count_commas (s : list ascii) : nat :=
  length (filter (λ c, c = ","%char) s).




(** *** Lazy indexing of includes *)

Section WithParser.

(** URI.parse(uri).fsPath and parser.parse_file are not part of these
    sources: both are taken as given. [parse_file file completions b] is
    the table that the (synchronous) parser leaves in [completions]. *)
Variable fsPath : string → string.
Variable parse_file : string → FileCompletions → bool → FileCompletions.
Variable parse_blob : list ascii → FileCompletions → string → FileCompletions.

(** The table the parser builds for the include directive [i]. *)
Definition parsed (i : Include) : FileCompletions :=
  parse_file (fsPath (uri i)) (new_FileCompletions (uri i)) (IsBuiltIn i).

(** One iteration of the loop of read_unscanned_imports. *)
Definition scan_import (rec : Repo → FileCompletions → option Repo)
    (repo : Repo) (import_file : Include) : option Repo :=
  match repo !! uri import_file with
  | Some _ => Some repo
  | None =>
      let file := fsPath (uri import_file) in
      let new_completions :=
        parse_file file (new_FileCompletions (uri import_file))
          (IsBuiltIn import_file) in
      repo ← rec repo new_completions;
      Some (<[uri import_file := new_completions]> repo)
  end.

(** read_unscanned_imports(completions), as a function of the repository
    map; [None] when the recursion is deeper than [fuel]. *)
Fixpoint read_unscanned_imports (fuel : nat) (repo : Repo)
    (completions : FileCompletions) : option Repo :=
  match fuel with
  | 0 => None
  | S fuel' =>
      for_each (scan_import (read_unscanned_imports fuel'))
        (includes completions) repo
  end.

(** handle_new_document(document): the document enters the map once its
    includes have been read. *)
Definition handle_new_document (fuel : nat) (repo : Repo)
    (document : TextDocument) : option Repo :=
  let completions :=
    parse_blob (getText document) (new_FileCompletions (doc_uri document))
      (doc_uri document) in
  repo ← read_unscanned_imports fuel repo completions;
  Some (<[doc_uri document := completions]> repo).

(** handle_document_change(event): the table of the document is
    replaced; its includes are not read. *)
Definition handle_document_change (repo : Repo) (document : TextDocument)
  : Repo :=
  let this_completions :=
    parse_blob (getText document) (new_FileCompletions (doc_uri document))
      (doc_uri document) in
  <[doc_uri document := this_completions]> repo.

End WithParser.

Section indexed_maps.

Variable fsPath : string → string.
Variable parse_file : string → FileCompletions → bool → FileCompletions.

(** What a call that returns has done to the map: the tables it found
    are there as they were, the includes it was given have a table, and
    each table it added is the parse of an include directive, with a
    table for each of its own includes. *)
Record indexed (repo : Repo) (incs : list Include) (repo' : Repo) : Prop := {
  ix_kept : repo ⊆ repo';
  ix_roots : ∀ i, i ∈ incs → is_Some (repo' !! uri i);
  ix_new : ∀ u fc, repo' !! u = Some fc →
    repo !! u = Some fc ∨
    (repo !! u = None ∧ ∃ i, uri i = u ∧ fc = parsed fsPath parse_file i ∧
       ∀ j, j ∈ includes fc → is_Some (repo' !! uri j))
}.

End indexed_maps.

(** *** The include graph, as the specification describes it *)

(** [v] is the target of an include directive recorded for [u]. *)
Definition includes_edge (repo : Repo) (u v : string) : Prop :=
  ∃ fc, repo !! u = Some fc ∧ v ∈ uri <$> includes fc.

(** The files reachable from [u] through one or more include directives. *)
Definition transitiveIncludes (repo : Repo) (u v : string) : Prop :=
  tc (includes_edge repo) u v.

Section closure.

Variable repo : Repo.

(** What a completed traversal guarantees about the visited set. *)
Record traversed (files : list string) (incs : list Include)
    (files' : list string) : Prop := {
  tr_prefix : ∃ ext, files' = files ++ ext;
  tr_nodup : NoDup files → NoDup files';
  tr_roots : ∀ i, i ∈ incs → uri i ∈ files';
  tr_sound : ∀ v, v ∈ files' →
    v ∈ files ∨ ∃ i, i ∈ incs ∧ rtc (includes_edge repo) (uri i) v;
  tr_closed : ∀ u v, u ∈ files' → u ∉ files → includes_edge repo u v → v ∈ files'
}.

(** Files with a table that are not yet in the visited set: every
    recursive call removes one of them. *)
Definition unvisited (files : list string) : gset string :=
  dom repo ∖ list_to_set files.

End closure.

(** *** Other operations of the repository *)

(** Map.prototype.get *)
Fixpoint map_get {V : Type} (k : string) (m : list (string * V)) : option V :=
  match m with
  | [] => None
  | (k', v) :: m' => if bool_decide (k' = k) then Some v else map_get k m'
  end.

(** FileCompletions.get(id) *)
Definition get (id : string) (fc : FileCompletions) : option Completion :=
  map_get id (completions fc).

Section WithFs.

(** The file system and the path and URI libraries are not part of
    these sources: fs.existsSync, path.dirname, path.join of three
    parts, path.resolve of two parts and of one, URI.file(p).toString()
    and URI.parse(u).fsPath are taken as given. *)
Variable existsSync : string → bool.
Variable dirname : string → string.
Variable join3 : string → string → string → string.
Variable resolve2 : string → string → string.
Variable resolve1 : string → string.
Variable URI_file : string → string.
Variable fsPath : string → string.

(** FileCompletions.resolve_import(file, relative, IsBuiltIn) *)
Definition resolve_import (file : string) (relative IsBuiltIn : bool)
    (fc : FileCompletions) : FileCompletions :=
  let uri := file +:+ ".inc" in
  let base_file := fsPath (file_uri fc) in
  let base_directory := dirname base_file in
  if negb relative then
    let inc_file := join3 base_directory "include/" uri in
    if existsSync inc_file then add_include (URI_file inc_file) IsBuiltIn fc
    else add_include ("file://__sourcemod_builtin/" +:+ uri) IsBuiltIn fc
  else
    let inc_file := resolve2 base_directory uri in
    if existsSync inc_file then add_include (URI_file inc_file) IsBuiltIn fc
    else add_include (URI_file (resolve1 (file +:+ ".sp"))) IsBuiltIn fc.

End WithFs.

(** *** Sample repositories *)

Module Sample.

Definition uriA : string := "file:///project/A.inc".
Definition uriB : string := "file:///project/B.inc".
Definition uriC : string := "file:///project/C.inc".
Definition uriD : string := "file:///project/D.inc".

(** The path of a file:// identity: the text after the scheme. *)
Definition fsPath (u : string) : string :=
  String.substring 7 (String.length u - 7) u.

Definition table (u : string) (items : list Completion) (incs : list string)
  : FileCompletions :=
  foldl (λ fc i, add_include i false fc)
    (foldl (λ fc c, add (name c) c fc) (new_FileCompletions u) items) incs.

(** A and B include each other. *)
Definition tableA : FileCompletions :=
  table uriA [FunctionCompletion "FromA" "void FromA()" "" []] [uriB].
Definition tableB : FileCompletions :=
  table uriB [DefineCompletion "FROM_B"] [uriA].

(** The parser on a disk that holds A.inc and B.inc. *)
Definition parse_file (file : string) (fc : FileCompletions) (b : bool)
  : FileCompletions :=
  if bool_decide (file = fsPath uriA) then
    {| completions := completions tableA; includes := includes tableA;
       file_uri := file_uri fc |}
  else if bool_decide (file = fsPath uriB) then
    {| completions := completions tableB; includes := includes tableB;
       file_uri := file_uri fc |}
  else fc.

(** The parser on the text of an open document: the sample documents
    are the files of the disk. *)
Definition parse_blob (text : list ascii) (fc : FileCompletions) (u : string)
  : FileCompletions :=
  parse_file (fsPath u) fc false.

(** A repository with a cycle (A, B) and a diamond (D includes A and C,
    both of which include B); C also names a file that has no table. *)
Definition tableC : FileCompletions :=
  table uriC [VariableCompletion "g_c" uriC] [uriB; "file://__sourcemod_builtin/x.inc"].
Definition tableD : FileCompletions :=
  table uriD [EnumCompletion "E" uriD] [uriA; uriC].

Definition repo : Repo :=
  <[uriD := tableD]> (<[uriC := tableC]> (<[uriB := tableB]> {[uriA := tableA]})).

(** A disk without cycle: lib.inc includes core.inc, which includes
    nothing. *)
Definition uriLib : string := "file:///project/include/lib.inc".
Definition uriCore : string := "file:///project/include/core.inc".

Definition parse_tree (file : string) (fc : FileCompletions) (b : bool)
  : FileCompletions :=
  if bool_decide (file = fsPath uriLib) then
    add_include uriCore b (add "LibCall" (FunctionCompletion "LibCall" "" "" []) fc)
  else if bool_decide (file = fsPath uriCore) then
    add "CORE" (DefineCompletion "CORE") fc
  else fc.

(** How far a file of that disk is from a file without include. *)
Definition depth (u : string) : nat :=
  if bool_decide (fsPath u = fsPath uriLib) then 1 else 0.

(** A source file with three functions, and documents on it. *)
Definition uriMain : string := "file:///project/main.sp".

Definition DoThing : Completion :=
  FunctionCompletion "DoThing" "void DoThing(int a, int b, int c)" "" [].
Definition Foo : Completion :=
  FunctionCompletion "Foo" "int Foo(int x, int y)" "" [].
Definition Bar : Completion :=
  FunctionCompletion "Bar" "int Bar(int a, int b, int c)" "" [].

Definition calls : Repo := {[ uriMain := table uriMain [DoThing; Foo; Bar] [] ]}.

Definition document (u text : string) : TextDocument :=
  {| doc_uri := u; doc_fsPath := fsPath u;
     getText := String.list_ascii_of_string text |}.

End Sample.

End Repository.

(** ** Items and the completion provider *)

Module Items.

(** vscode.Range; both ends belong to the range. *)
Record Range := {
  start : Position;
  end_ : Position
}.

Definition isBeforeOrEqual (p q : Position) : bool :=
  (line p <? line q) || (line p =? line q) && (character p <=? character q).

(** Range.contains(position) *)
Definition contains (r : Range) (p : Position) : bool :=
  isBeforeOrEqual (start r) p && isBeforeOrEqual p (end_ r).

(** Range.contains(range) *)
Definition contains_range (outer inner : Range) : bool :=
  contains outer (start inner) && contains outer (end_ inner).

(** Modelled from the spec: the item classes (Backend/Items) are not part
    of these sources. An item has the fields of the data model that the
    provider reads. [ref] stands for the identity of the object, which is
    what Array.prototype.includes compares; [parent] is the identity of
    the enclosing enum struct or methodmap of a method or property, and
    [None] for an item whose parent is not an item. A [detail] that is
    undefined is [None]. *)
Record SPItem := {
  ref : nat;
  name : string;
  kind : CompletionItemKind;
  filePath : string;
  fullRange : Range;
  detail : option (list ascii);
  parent : option nat
}.

Definition MP : list CompletionItemKind := [KMethod; KProperty].

(** The predicate of getLastFunc. *)
Definition is_callable_at (position : Position) (document : TextDocument)
    (e : SPItem) : bool :=
  bool_decide (kind e ∈ [KFunction; KMethod]) &&
  bool_decide (filePath e = doc_fsPath document) &&
  contains (fullRange e) position.

Definition getLastFunc (position : Position) (document : TextDocument)
    (allItems : list SPItem) : option SPItem :=
  List.find (is_callable_at position document) allItems.

Definition getLastEnumStructNameOrMethodMap (position : Position)
    (filePath_ : string) (allItems : list SPItem) : option SPItem :=
  List.find (λ e,
      bool_decide (kind e ∈ [KStruct; KClass]) &&
      bool_decide (filePath e = filePath_) &&
      contains (fullRange e) position) allItems.

(** The innermost callable of the specification: a callable around the
    position whose range lies within the range of every other one. *)
Definition innermost_callable (position : Position) (document : TextDocument)
    (allItems : list SPItem) (e : SPItem) : Prop :=
  e ∈ allItems ∧ is_callable_at position document e = true ∧
  ∀ e', e' ∈ allItems → is_callable_at position document e' = true →
        contains_range (fullRange e') (fullRange e) = true.

(** variableTypes.includes(x), for x an item or undefined *)
Definition includes_ref (variableTypes : list SPItem) (x : option nat) : bool :=
  match x with
  | Some r => existsb (λ t, ref t =? r) variableTypes
  | None => false
  end.

(** Does [s] start with [p]? *)
Fixpoint starts_with (p s : list ascii) : bool :=
  match p, s with
  | [], _ => true
  | a :: p', c :: s' => bool_decide (a = c) && starts_with p' s'
  | _ :: _, [] => false
  end.

Definition static_word : list ascii :=
  ["s"; "t"; "a"; "t"; "i"; "c"]%char.

(** After the word: a boundary, then [^\(]*\( , that is, a character that
    is not of a word and an opening parenthesis somewhere from there on. *)
Definition static_tail (rest : list ascii) : bool :=
  match rest with
  | [] => false
  | c :: _ => negb (is_word c) && existsb (λ x, bool_decide (x = "("%char)) rest
  end.

(** A match of /\bstatic\b[^\(]*\(/ that starts in [s], the character
    before [s] being of a word or not. *)
Fixpoint static_from (prev_is_word : bool) (s : list ascii) : bool :=
  match s with
  | [] => false
  | c :: s' =>
      negb prev_is_word && starts_with static_word s &&
        static_tail (drop 6 s)
      || static_from (is_word c) s'
  end.

(** /\bstatic\b[^\(]*\(/.test(detail); an undefined detail is tested as
    the text "undefined". *)
Definition static_test (detail : option (list ascii)) : bool :=
  match detail with
  | Some d => static_from false d
  | None => false
  end.

(** Set.prototype.add on a Set<CompletionItem | undefined>. A completion
    item is a new object at every call of toCompletionItem, so that only
    undefined can be in the set already. *)
Definition items_add (x : option CompletionItem)
    (items : list (option CompletionItem)) : list (option CompletionItem) :=
  match x with
  | Some _ => items ++ [x]
  | None => if existsb (λ y, bool_decide (y = None)) items then items
            else items ++ [x]
  end.

Definition items_delete_undefined (items : list (option CompletionItem))
  : list (option CompletionItem) :=
  filter (λ y, y ≠ None) items.

(** Array.from(items).filter((e) => e !== undefined) *)
Definition defined_items (items : list (option CompletionItem))
  : list CompletionItem :=
  omap id items.

(** What is left of a set of completion items once undefined is deleted. *)
Definition cleaned (items : list (option CompletionItem))
  : list CompletionItem :=
  defined_items (items_delete_undefined items).

Section Provider.

(** The parts of the backend that these sources do not contain. *)
Variable ItemsRepository : Type.
Variable getAllItems : ItemsRepository → string → list SPItem.
Variable lineAt : TextDocument → nat → option (list ascii).
Variable isMethodCall : list ascii → Position → bool.
Variable getTypeOfVariable :
  list ascii → Position → list SPItem → option SPItem → option SPItem →
  option string * list string.
Variable getAllInheritances : SPItem → list SPItem → list SPItem.
Variable toCompletionItem : SPItem → option SPItem → option CompletionItem.

(** The condition of the loop of getMethodItems. *)
Definition is_method_item (variableTypes : list SPItem) (isMethodMap : bool)
    (item : SPItem) : bool :=
  bool_decide (kind item ∈ MP) &&
  includes_ref variableTypes (parent item) &&
  (* Don't include the constructor of the methodmap *)
  negb (includes_ref variableTypes (Some (ref item))) &&
  (* Don't include static methods if we are not calling a method from its
     type. *)
  Bool.eqb isMethodMap (static_test (detail item)).

Definition getMethodItems (allItems variableTypes : list SPItem)
    (isMethodMap : bool) (lastFunc : option SPItem) : list CompletionItem :=
  let items :=
    foldl (λ items item,
             if is_method_item variableTypes isMethodMap item
             then items_add (toCompletionItem item lastFunc) items
             else items) [] allItems in
  let items := items_delete_undefined items in
  defined_items items.

Definition getNonMethodItems (allItems : list SPItem)
    (lastFunc : option SPItem) : list CompletionItem :=
  let items :=
    foldl (λ items item,
             if negb (bool_decide (kind item ∈ MP))
             then items_add (toCompletionItem item lastFunc) items
             else items) [] allItems in
  let items := items_delete_undefined items in
  defined_items items.

(** The lookup of the receiver's type among the items. *)
Definition find_type (allItems : list SPItem) (variableType : option string)
  : option SPItem :=
  List.find (λ e,
      bool_decide (kind e ∈ [KClass; KStruct]) &&
      bool_decide (Some (name e) = variableType)) allItems.

(** Is the receiver a single word that names a methodmap? *)
Definition names_methodmap (allItems : list SPItem) (words : list string)
  : bool :=
  (length words =? 1) &&
  bool_decide (is_Some (List.find (λ e,
      bool_decide (Some (name e) = words !! 0) &&
      bool_decide (kind e = KClass)) allItems)).

(** getCompletionListFromPosition. The test allItems === [] compares an
    array with a new one and never holds. Reading a property of the
    undefined result of find throws. *)
Definition getCompletionListFromPosition (itemsRepo : ItemsRepository)
    (document : TextDocument) (position : Position)
  : outcome (list CompletionItem) :=
  let allItems := getAllItems itemsRepo (doc_uri document) in
  match lineAt document (line position) with
  | None => Throw
  | Some line =>
      let isMethod := isMethodCall line position in
      let lastFunc := getLastFunc position document allItems in
      if negb isMethod then Return (getNonMethodItems allItems lastFunc)
      else
        let lastEnumStructOrMethodMap :=
          getLastEnumStructNameOrMethodMap position (doc_fsPath document)
            allItems in
        let '(variableType, words) :=
          getTypeOfVariable line position allItems lastFunc
            lastEnumStructOrMethodMap in
        match find_type allItems variableType with
        | None => Throw
        | Some variableTypeItem =>
            let variableTypes :=
              if bool_decide (kind variableTypeItem = KClass)
              then getAllInheritances variableTypeItem allItems
              else [variableTypeItem] in
            let isMethodMap := names_methodmap allItems words in
            Return (getMethodItems allItems variableTypes isMethodMap lastFunc)
        end
  end.

End Provider.

(** *** The completion of the specification *)

(** The static call of the specification: the receiver expression is the
    name of a methodmap. *)
Definition static_call (allItems : list SPItem) (words : list string) : Prop :=
  ∃ w e, words = [w] ∧ e ∈ allItems ∧ name e = w ∧ kind e = KClass.

(** The items that complete behind a receiver whose types are [chain]:
    methods and properties whose parent is in the chain, that are not
    themselves a type of the chain (the entry of a type, which stands for
    its constructor), and whose static marker agrees with the call. *)
Definition completes_on (chain : list SPItem) (static : Prop)
    (item : SPItem) : Prop :=
  (kind item = KMethod ∨ kind item = KProperty) ∧
  (∃ t, t ∈ chain ∧ parent item = Some (ref t)) ∧
  (¬ ∃ t, t ∈ chain ∧ ref t = ref item) ∧
  (static_test (detail item) = true ↔ static).

(** *** A sample backend and sample items *)

Module Sample.

Definition at_ (l c : nat) : Position := {| line := l; character := c |}.

Definition lines_ (first last_ : nat) : Range :=
  {| start := at_ first 0; end_ := at_ last_ 1 |}.

Definition path : string := "/project/main.sp".

Definition document (text : string) : TextDocument :=
  {| doc_uri := "file:///project/main.sp"; doc_fsPath := path;
     getText := String.list_ascii_of_string text |}.

Definition item (r : nat) (n : string) (k : CompletionItemKind) (rg : Range)
    (d : string) (p : option nat) : SPItem :=
  {| ref := r; name := n; kind := k; filePath := path; fullRange := rg;
     detail := Some (String.list_ascii_of_string d); parent := p |}.

(** Two callables, the first around the second. *)
Definition outer : SPItem :=
  item 1 "Outer" KFunction (lines_ 0 10) "void Outer()" None.
Definition inner : SPItem :=
  item 2 "Inner" KFunction (lines_ 2 4) "void Inner()" None.

(** A methodmap Foo that extends Base, with an instance method and a
    static one, a method of Base, a function and a variable of type Foo. *)
Definition Base : SPItem := item 10 "Base" KClass (lines_ 0 5) "" None.
Definition Foo : SPItem := item 11 "Foo" KClass (lines_ 6 12) "" (Some 10).
Definition Base_Close : SPItem :=
  item 12 "Close" KMethod (lines_ 1 2) "public void Close()" (Some 10).
Definition Foo_Get : SPItem :=
  item 13 "Get" KMethod (lines_ 7 8) "public int Get()" (Some 11).
Definition Foo_Make : SPItem :=
  item 14 "Make" KMethod (lines_ 9 10) "public static Foo Make()" (Some 11).
Definition Main : SPItem :=
  item 15 "Main" KFunction (lines_ 14 20) "void Main()" None.
Definition obj : SPItem :=
  item 16 "obj" KVariable (lines_ 15 15) "Foo" None.

Definition program : list SPItem :=
  [Base; Foo; Base_Close; Foo_Get; Foo_Make; Main; obj].

(** An enum struct Vec with a method and a property, and a variable of
    that type. *)
Definition Vec : SPItem := item 20 "Vec" KStruct (lines_ 22 30) "" None.
Definition Vec_Length : SPItem :=
  item 21 "Length" KMethod (lines_ 24 26) "float Length()" (Some 20).
Definition Vec_x : SPItem :=
  item 22 "x" KProperty (lines_ 23 23) "float x" (Some 20).
Definition vec : SPItem :=
  item 23 "vec" KVariable (lines_ 32 32) "Vec" None.

Definition geometry : list SPItem :=
  program ++ [Vec; Vec_Length; Vec_x; vec].

(** The constructor of Foo: a method of Foo that has the name of its
    methodmap. *)
Definition Foo_Foo : SPItem :=
  item 17 "Foo" KMethod (lines_ 11 12) "public Foo()" (Some 11).

Definition constructed : list SPItem := program ++ [Foo_Foo].

Definition getAllItems (itemsRepo : list SPItem) (_ : string) : list SPItem :=
  itemsRepo.

Definition lineAt (document : TextDocument) (n : nat) : option (list ascii) :=
  split_newline (getText document) !! n.

Fixpoint skip_word (s : list ascii) : list ascii :=
  match s with
  | c :: s' => if is_word c then skip_word s' else s
  | [] => []
  end.

(** The text before the cursor, nearest character first. *)
Definition before_cursor (line : list ascii) (position : Position)
  : list ascii :=
  reverse (take (character position) line).

(** A method call: behind the identifier characters before the cursor
    there is a dot. *)
Definition isMethodCall (line : list ascii) (position : Position) : bool :=
  bool_decide (head (skip_word (before_cursor line position)) = Some "."%char).

(** The receiver: the identifier before that dot. *)
Definition receiver (line : list ascii) (position : Position) : string :=
  String.string_of_list_ascii
    (Repository.trailing_identifier
       (reverse (drop 1 (skip_word (before_cursor line position))))).

(** The type of the receiver: the detail of the variable of that name,
    or the receiver itself when it names a methodmap. *)
Definition getTypeOfVariable (line : list ascii) (position : Position)
    (allItems : list SPItem) (lastFunc lastType : option SPItem)
  : option string * list string :=
  let w := receiver line position in
  let variableType :=
    match List.find (λ e, bool_decide (name e = w)
                          && bool_decide (kind e = KVariable)) allItems with
    | Some v => String.string_of_list_ascii <$> detail v
    | None =>
        match List.find (λ e, bool_decide (name e = w)
                              && bool_decide (kind e = KClass)) allItems with
        | Some _ => Some w
        | None => None
        end
    end in
  (variableType, [w]).

(** The chain of a methodmap: the parent of a methodmap is its base. *)
Fixpoint chain_from (fuel : nat) (allItems : list SPItem) (t : SPItem)
  : list SPItem :=
  t :: match fuel with
       | 0 => []
       | S fuel' =>
           match List.find (λ e, bool_decide (Some (ref e) = parent t))
                   allItems with
           | Some base => chain_from fuel' allItems base
           | None => []
           end
       end.

Definition getAllInheritances (t : SPItem) (allItems : list SPItem)
  : list SPItem :=
  chain_from (length allItems) allItems t.

Definition toCompletionItem (e : SPItem) (lastFunc : option SPItem)
  : option CompletionItem :=
  Some (plain_item (name e) (kind e)).

Definition complete (itemsRepo : list SPItem) (document : TextDocument)
    (position : Position) : outcome (list CompletionItem) :=
  getCompletionListFromPosition (list SPItem) getAllItems lineAt isMethodCall
    getTypeOfVariable getAllInheritances toCompletionItem
    itemsRepo document position.

End Sample.

End Items.

(** ** The define extractor *)

Module Define.

Import Items.

Record DefineItem := {
  define_name : string;
  value : list ascii;
  description : list ascii;
  define_filePath : string;
  range : Range;
  define_IsBuiltIn : bool;
  define_fullRange : Range
}.

(** What the table of a file holds: defines, and the other items. *)
Inductive FileItem :=
  | OfDefine (d : DefineItem)
  | OfItem (e : SPItem).

(** The fields of the parser that readDefine reads and writes. *)
Record Parser := {
  lines : list (list ascii);
  lineNb : nat;
  filePath : string;
  IsBuiltIn : bool;
  fileItems : list (string * FileItem)
}.

(** The result of line.match for the define directive: match[0] is the
    text matched, match[1] the name. *)
Record RegExpMatchArray := {
  match0 : list ascii;
  match1 : string
}.

(** The end-of-comment pattern of readDefine is a group of any characters
    but line terminators, as many as possible, followed by an asterisk
    and a slash. [greedy_end s] is where the group ends when the match
    starts at index 0: the largest [j] such that the asterisk and slash
    are at index [j] and no line terminator comes before them. *)
Fixpoint greedy_end (s : list ascii) : option nat :=
  match s with
  | [] => None
  | c :: s' =>
      if is_line_terminator c then None
      else match greedy_end s' with
           | Some j => Some (S j)
           | None => if starts_with ["*"; "/"]%char s then Some 0 else None
           end
  end.

(** The match of the end-of-comment pattern in [s]: the lengths of
    match[1] and of match[0], for the first index at which a match
    starts. *)
Fixpoint end_comment_match (s : list ascii) : option (nat * nat) :=
  match greedy_end s with
  | Some j => Some (j, j + 2)
  | None =>
      match s with
      | [] => None
      | _ :: s' => end_comment_match s'
      end
  end.

(** The double quote. *)
Definition dquote : ascii := "034"%char.

(** The variables of the loop of readDefine. *)
Record Scan := {
  cur_line : list ascii;
  i : nat;
  cur_value : list ascii;
  cur_description : list ascii;
  openDQuote : bool;
  openSQuote : bool;
  blockComment : bool;
  rest_lines : list (list ascii);
  cur_lineNb : nat
}.

(** How the loop ends: its condition fails or it breaks, and the item is
    built from the state; or the function returns from inside the loop. *)
Inductive LoopEnd :=
  | Exit (st : Scan)
  | Abort (st : Scan).

(** The loop of readDefine; [budget] is what is left of the 10000
    iterations. *)
Fixpoint scan (budget : nat) (st : Scan) : LoopEnd :=
  match budget with
  | 0 => Exit st
  | S budget' =>
      let line := cur_line st in
      match line !! i st with
      | None => Exit st
      | Some c =>
          if bool_decide (c = dquote) && negb (openSQuote st)
             && negb (blockComment st) then
            scan budget'
              {| cur_line := line; i := S (i st);
                 cur_value := cur_value st ++ [c];
                 cur_description := cur_description st;
                 openDQuote := negb (openDQuote st);
                 openSQuote := openSQuote st;
                 blockComment := blockComment st;
                 rest_lines := rest_lines st; cur_lineNb := cur_lineNb st |}
          else if bool_decide (c = "'"%char) && negb (openDQuote st)
                  && negb (blockComment st) then
            scan budget'
              {| cur_line := line; i := S (i st);
                 cur_value := cur_value st ++ [c];
                 cur_description := cur_description st;
                 openDQuote := openDQuote st;
                 openSQuote := negb (openSQuote st);
                 blockComment := blockComment st;
                 rest_lines := rest_lines st; cur_lineNb := cur_lineNb st |}
          else if negb (blockComment st) then
            if (S (i st) <? length line)
               && bool_decide (c = "/"%char)
               && bool_decide (line !! S (i st) = Some "*"%char)
               && negb (openSQuote st || openDQuote st) then
              scan budget'
                {| cur_line := line; i := i st + 2;
                   cur_value := cur_value st;
                   cur_description := cur_description st;
                   openDQuote := openDQuote st;
                   openSQuote := openSQuote st;
                   blockComment := true;
                   rest_lines := rest_lines st; cur_lineNb := cur_lineNb st |}
            else if (S (i st) <? length line)
               && bool_decide (c = "/"%char)
               && bool_decide (line !! S (i st) = Some "/"%char)
               && negb (openSQuote st || openDQuote st) then
              Exit
                {| cur_line := line; i := i st;
                   cur_value := cur_value st;
                   cur_description := slice_from (i st + 2) line;
                   openDQuote := openDQuote st;
                   openSQuote := openSQuote st;
                   blockComment := blockComment st;
                   rest_lines := rest_lines st; cur_lineNb := cur_lineNb st |}
            else
              scan budget'
                {| cur_line := line; i := S (i st);
                   cur_value := cur_value st ++ [c];
                   cur_description := cur_description st;
                   openDQuote := openDQuote st;
                   openSQuote := openSQuote st;
                   blockComment := blockComment st;
                   rest_lines := rest_lines st; cur_lineNb := cur_lineNb st |}
          else
            match end_comment_match (slice_from (i st) line) with
            | Some (len1, len0) =>
                scan budget'
                  {| cur_line := line; i := i st + len0;
                     cur_value := cur_value st;
                     cur_description :=
                       cur_description st
                       ++ trimEnd (slice (i st) (i st + len1) line);
                     openDQuote := openDQuote st;
                     openSQuote := openSQuote st;
                     blockComment := false;
                     rest_lines := rest_lines st;
                     cur_lineNb := cur_lineNb st |}
            | None =>
                let description :=
                  cur_description st ++ trimEnd (slice_from (i st) line) in
                match rest_lines st with
                | [] =>
                    (* lines.shift() is undefined *)
                    Abort
                      {| cur_line := line; i := i st;
                         cur_value := cur_value st;
                         cur_description := description;
                         openDQuote := openDQuote st;
                         openSQuote := openSQuote st;
                         blockComment := blockComment st;
                         rest_lines := []; cur_lineNb := S (cur_lineNb st) |}
                | next :: more =>
                    scan budget'
                      {| cur_line := next; i := 0;
                         cur_value := cur_value st;
                         cur_description := description;
                         openDQuote := openDQuote st;
                         openSQuote := openSQuote st;
                         blockComment := blockComment st;
                         rest_lines := more; cur_lineNb := S (cur_lineNb st) |}
                end
            end
      end
  end.

Definition iteration_cap : nat := 10000.

Section WithRanges.

(** parser.makeDefinitionRange and positiveRange (utils) are not part of
    these sources. *)
Variable makeDefinitionRange : Parser → string → list ascii → Range.
Variable positiveRange : nat → nat → nat → Range.

Definition initial (parser : Parser) (m : RegExpMatchArray)
    (line : list ascii) : Scan :=
  {| cur_line := line; i := length (match0 m);
     cur_value := []; cur_description := [];
     openDQuote := false; openSQuote := false; blockComment := false;
     rest_lines := lines parser; cur_lineNb := lineNb parser |}.

(** readDefine(parser, match, line): the parser it leaves. *)
Definition readDefine (parser : Parser) (m : RegExpMatchArray)
    (line : list ascii) : Parser :=
  match scan iteration_cap (initial parser m line) with
  | Abort st =>
      {| lines := rest_lines st; lineNb := cur_lineNb st;
         filePath := filePath parser; IsBuiltIn := IsBuiltIn parser;
         fileItems := fileItems parser |}
  | Exit st =>
      let parser' :=
        {| lines := rest_lines st; lineNb := cur_lineNb st;
           filePath := filePath parser; IsBuiltIn := IsBuiltIn parser;
           fileItems := fileItems parser |} in
      let range := makeDefinitionRange parser' (match1 m) (cur_line st) in
      let fullRange :=
        positiveRange (lineNb parser') 0 (length (cur_line st)) in
      let item :=
        {| define_name := match1 m; value := cur_value st;
           description := cur_description st;
           define_filePath := filePath parser; range := range;
           define_IsBuiltIn := IsBuiltIn parser;
           define_fullRange := fullRange |} in
      {| lines := rest_lines st; lineNb := cur_lineNb st;
         filePath := filePath parser; IsBuiltIn := IsBuiltIn parser;
         fileItems :=
           Repository.map_set (match1 m) (OfDefine item) (fileItems parser) |}
  end.

End WithRanges.

(** *** Runs of value text *)

(** Outside a block comment, a character that is appended to the value
    whatever follows it: not a quote that opens or closes, and not a
    slash unless a quote is open. *)
Definition text_char (openD openS : bool) (c : ascii) : bool :=
  negb (bool_decide (c = dquote) && negb openS) &&
  negb (bool_decide (c = "'"%char) && negb openD) &&
  (negb (bool_decide (c = "/"%char)) || openS || openD).

(** The state after [run] has been appended to the value. *)
Definition advance (st : Scan) (run : list ascii) : Scan :=
  {| cur_line := cur_line st; i := length run + i st;
     cur_value := cur_value st ++ run;
     cur_description := cur_description st;
     openDQuote := openDQuote st; openSQuote := openSQuote st;
     blockComment := blockComment st;
     rest_lines := rest_lines st; cur_lineNb := cur_lineNb st |}.

(** The state after a quote has been read, which opens or closes. *)
Definition toggle (st : Scan) (q : ascii) : Scan :=
  {| cur_line := cur_line st; i := S (i st);
     cur_value := cur_value st ++ [q];
     cur_description := cur_description st;
     openDQuote := if bool_decide (q = dquote) then negb (openDQuote st)
                   else openDQuote st;
     openSQuote := if bool_decide (q = dquote) then openSQuote st
                   else negb (openSQuote st);
     blockComment := blockComment st;
     rest_lines := rest_lines st; cur_lineNb := cur_lineNb st |}.

(** The state once the opening of a block comment has been read. *)
Definition enter_comment (st : Scan) : Scan :=
  {| cur_line := cur_line st; i := i st + 2;
     cur_value := cur_value st; cur_description := cur_description st;
     openDQuote := openDQuote st; openSQuote := openSQuote st;
     blockComment := true;
     rest_lines := rest_lines st; cur_lineNb := cur_lineNb st |}.

(** The state once the end of the comment has been matched on the
    line, [len1] and [len0] being the lengths of the group and of the
    match. *)
Definition leave_comment (st : Scan) (len1 len0 : nat) : Scan :=
  {| cur_line := cur_line st; i := i st + len0;
     cur_value := cur_value st;
     cur_description :=
       cur_description st
       ++ trimEnd (slice (i st) (i st + len1) (cur_line st));
     openDQuote := openDQuote st; openSQuote := openSQuote st;
     blockComment := false;
     rest_lines := rest_lines st; cur_lineNb := cur_lineNb st |}.


(** Value text outside quotes: no quote and no slash. *)
Definition plain (v : list ascii) : Prop :=
  ∀ c, c ∈ v → c ≠ dquote ∧ c ≠ "'"%char ∧ c ≠ "/"%char.

(** *** Sample parsers *)

Module Sample.

Definition text (s : string) : list ascii := String.list_ascii_of_string s.

Definition parser (remaining : list (list ascii)) : Parser :=
  {| lines := remaining; lineNb := 7; filePath := "/project/main.sp";
     IsBuiltIn := false; fileItems := [] |}.

(** The match of a directive that defines X: the text up to the name. *)
Definition defines_X : RegExpMatchArray :=
  {| match0 := text "#define X"; match1 := "X" |}.

(** The same, for a pattern that also takes the blanks behind the name. *)
Definition defines_X_blank : RegExpMatchArray :=
  {| match0 := text "#define X "; match1 := "X" |}.

(** The define line of the specification: X, then http://a in double
    quotes. *)
Definition url_line : list ascii :=
  text "#define X " ++ dquote :: text "http://a" ++ [dquote].

Definition makeDefinitionRange (p : Parser) (n : string) (l : list ascii)
  : Range :=
  {| start := {| line := lineNb p; character := 8 |};
     end_ := {| line := lineNb p; character := 8 + String.length n |} |}.

Definition positiveRange (lineNb start_ end__ : nat) : Range :=
  {| start := {| line := lineNb; character := start_ |};
     end_ := {| line := lineNb; character := end__ |} |}.

End Sample.

End Define.

(** ** The helpers of the definition provider *)

Module DefinitionProvider.

Import Items.

Definition backslash : ascii := "092"%char.

(** The variables of the loop of isInAString. *)
Record StringScan := {
  isEscaped : bool;
  isAString : bool;
  delimiter : option ascii
}.

Definition string_start : StringScan :=
  {| isEscaped := false; isAString := false; delimiter := None |}.

(** A quote that is not escaped: it closes the string it delimits,
    opens one when none is open, and is text inside a string of the
    other quote. *)
Definition on_quote (q : ascii) (st : StringScan) : StringScan :=
  if bool_decide (delimiter st = Some q) then
    {| isEscaped := false; isAString := false; delimiter := None |}
  else if bool_decide (delimiter st = None) then
    {| isEscaped := false; isAString := true; delimiter := Some q |}
  else
    {| isEscaped := false; isAString := isAString st;
       delimiter := delimiter st |}.

(** The body of the loop of isInAString. *)
Definition string_step (st : StringScan) (c : ascii) : StringScan :=
  if bool_decide (c = "'"%char) && negb (isEscaped st) then
    on_quote "'"%char st
  else if bool_decide (c = Define.dquote) && negb (isEscaped st) then
    on_quote Define.dquote st
  else if bool_decide (c = backslash) then
    {| isEscaped := true; isAString := isAString st;
       delimiter := delimiter st |}
  else
    {| isEscaped := false; isAString := isAString st;
       delimiter := delimiter st |}.

(** The loop of isInAString from index [i]: [rest] is the line from
    that index on. *)
Fixpoint string_loop (rest : list ascii) (i end__ : nat) (st : StringScan)
  : StringScan :=
  match rest with
  | [] => st
  | c :: rest' =>
      if i <? end__ then string_loop rest' (S i) end__ (string_step st c)
      else st
  end.

Definition isInAString (range : Range) (line : list ascii) : bool :=
  isAString (string_loop line 0 (character (end_ range)) string_start).

(** The flag and the delimiter go together. *)
Definition coherent (st : StringScan) : Prop :=
  isAString st = bool_decide (is_Some (delimiter st)).

(** A single or a double quote. *)
Definition is_quote (c : ascii) : Prop := c = "'"%char ∨ c = Define.dquote.

(** Does a word character come right after? The end of the text is a
    boundary. *)
Definition boundary_after (rest : list ascii) : bool :=
  match rest with
  | [] => true
  | c :: _ => negb (is_word c)
  end.

(** Is there a boundary behind the text [pre]? The text before [pre]
    ends with a word character or not. *)
Definition boundary_before (prev_is_word : bool) (pre : list ascii) : Prop :=
  match last pre with
  | Some x => is_word x = false
  | None => prev_is_word = false
  end.

(** A match of the word [w] between two boundaries that starts in [s],
    the character before [s] being of a word or not. *)
Fixpoint word_from (w : list ascii) (prev_is_word : bool) (s : list ascii)
  : bool :=
  match s with
  | [] => false
  | c :: s' =>
      negb prev_is_word && starts_with w s
        && boundary_after (drop (length w) s)
      || word_from w (is_word c) s'
  end.

(** The words of toCheck; each pattern is the word between two
    boundaries, behind optional blanks, and is searched in the line. *)
Definition toCheck : list (list ascii) :=
  [ ["i"; "f"]; ["f"; "o"; "r"]; ["w"; "h"; "i"; "l"; "e"];
    ["c"; "a"; "s"; "e"]; ["s"; "w"; "i"; "t"; "c"; "h"];
    ["r"; "e"; "t"; "u"; "r"; "n"] ]%char.

Definition isControlStatement (line : list ascii) : bool :=
  existsb (λ w, word_from w false line) toCheck.

End DefinitionProvider.

(** * Properties of the repository *)

Section for_each_facts.

Context {A S : Type}.

Lemma for_each_cons (body : S → A → option S) x l s :
  for_each body (x :: l) s = body s x ≫= for_each body l.
Proof. simpl. by destruct (body s x). Qed.

Lemma for_each_Some_cons (body : S → A → option S) x l s s' :
  for_each body (x :: l) s = Some s' ↔
  ∃ s1, body s x = Some s1 ∧ for_each body l s1 = Some s'.
Proof.
  simpl. destruct (body s x) as [s1|]; split.
  - eauto.
  - by intros (? & [= <-] & ?).
  - done.
  - by intros (? & ? & ?).
Qed.

End for_each_facts.

Section traversal.

Import Repository.

Variable repo : Repo.

Abbreviation edge := (includes_edge repo).
Lemma traversed_subseteq files incs files' :
  traversed repo files incs files' → files ⊆ files'.
Proof. intros [[ext ->] _ _ _ _]. set_solver. Qed.

Lemma traversed_nil files : traversed repo files [] files.
Proof.
  split; [by exists []; rewrite app_nil_r | done | set_solver | by left | done].
Qed.

(** An include whose target is already in the set is skipped. *)
Lemma traversed_skip files i incs files' :
  uri i ∈ files → traversed repo files incs files' →
  traversed repo files (i :: incs) files'.
Proof.
  intros Hin H. pose proof (traversed_subseteq _ _ _ H) as Hsub.
  destruct H as [Hp Hn Hr Hs Hc]. split; [done | done | | | done].
  - intros j [->|Hj]%elem_of_cons; [set_solver | auto].
  - intros v Hv. destruct (Hs v Hv) as [?|(j & ? & ?)]; [by left|].
    right. exists j. set_solver.
Qed.

(** A new target that has no table: it is added and the loop goes on. *)
Lemma traversed_leaf files i incs files' :
  uri i ∉ files → repo !! uri i = None →
  traversed repo (files ++ [uri i]) incs files' →
  traversed repo files (i :: incs) files'.
Proof.
  intros Hnin Hrepo H. pose proof (traversed_subseteq _ _ _ H) as Hsub.
  destruct H as [[ext ->] Hn Hr Hs Hc]. split.
  - exists ([uri i] ++ ext). by rewrite app_assoc.
  - intros Hnd. apply Hn. apply NoDup_app. split_and!; [done | | apply NoDup_singleton].
    intros x Hx ->%list_elem_of_singleton. done.
  - intros j [->|Hj]%elem_of_cons; [set_solver | auto].
  - intros v Hv. destruct (Hs v Hv) as [[?| ->%list_elem_of_singleton]%elem_of_app|(j & ? & ?)].
    + by left.
    + right. exists i. split; [set_solver | done].
    + right. exists j. set_solver.
  - intros u v Hu Hnu Huv. destruct (decide (u = uri i)) as [->|Hne].
    + destruct Huv as (fc & Hfc & _). congruence.
    + apply (Hc u v); [done | set_solver | done].
Qed.

(** A new target with a table: its own includes are traversed first. *)
Lemma traversed_node files i fc incs files1 files' :
  uri i ∉ files → repo !! uri i = Some fc →
  traversed repo (files ++ [uri i]) (includes fc) files1 →
  traversed repo files1 incs files' →
  traversed repo files (i :: incs) files'.
Proof.
  intros Hnin Hrepo H1 H2.
  pose proof (traversed_subseteq _ _ _ H1) as Hsub1.
  pose proof (traversed_subseteq _ _ _ H2) as Hsub2.
  destruct H1 as [[ext1 ->] Hn1 Hr1 Hs1 Hc1].
  destruct H2 as [[ext2 ->] Hn2 Hr2 Hs2 Hc2]. split.
  - exists ([uri i] ++ ext1 ++ ext2). by rewrite !app_assoc.
  - intros Hnd. apply Hn2, Hn1. apply NoDup_app. split_and!; [done | | apply NoDup_singleton].
    intros x Hx ->%list_elem_of_singleton. done.
  - intros j [->|Hj]%elem_of_cons; [set_solver | auto].
  - intros v Hv. destruct (Hs2 v Hv) as [Hv1|(j & ? & ?)].
    + destruct (Hs1 v Hv1) as [[?| ->%list_elem_of_singleton]%elem_of_app|(j & Hj & Hjv)].
      * by left.
      * right. exists i. split; [set_solver | done].
      * right. exists i. split; [set_solver|].
        eapply rtc_l; [|done]. exists fc. split; [done|].
        apply list_elem_of_fmap. eauto.
    + right. exists j. set_solver.
  - intros u v Hu Hnu Huv.
    destruct (decide (u ∈ (files ++ [uri i]) ++ ext1)) as [Hu1|Hu1].
    + apply Hsub2. destruct (decide (u = uri i)) as [->|Hne].
      * destruct Huv as (fc' & Hfc' & (j & -> & Hj)%list_elem_of_fmap).
        assert (fc' = fc) as -> by congruence. by apply Hr1.
      * apply (Hc1 u v); [done | set_solver | done].
    + by apply (Hc2 u v).
Qed.

(** The traversal, when it returns, has computed a [traversed] set. *)
Lemma get_included_files_traversed fuel : ∀ incs files files',
  get_included_files repo fuel incs files = Some files' →
  traversed repo files incs files'.
Proof.
  induction fuel as [|fuel IH]; [done|]. simpl.
  induction incs as [|i incs IHincs]; intros files files'.
  - intros [= <-]. apply traversed_nil.
  - rewrite for_each_Some_cons. intros (files1 & Hvisit & Hrest).
    apply IHincs in Hrest. unfold visit_include in Hvisit.
    case_bool_decide as Hin.
    + injection Hvisit as <-. by apply traversed_skip.
    + destruct (repo !! uri i) as [fc|] eqn:Hrepo.
      * apply IH in Hvisit. by eapply traversed_node.
      * injection Hvisit as <-. by apply traversed_leaf.
Qed.

Lemma unvisited_mono files files' :
  files ⊆ files' → size (unvisited repo files') ≤ size (unvisited repo files).
Proof. intros H. apply subseteq_size. unfold unvisited. set_solver. Qed.

Lemma unvisited_step files u :
  u ∉ files → is_Some (repo !! u) →
  size (unvisited repo (files ++ [u])) < size (unvisited repo files).
Proof.
  intros Hu Hrepo. apply subset_size. unfold unvisited.
  apply elem_of_dom in Hrepo. set_solver.
Qed.

(** The traversal returns as soon as the fuel exceeds the number of
    unvisited repo files that have a table. *)
Lemma get_included_files_total fuel : ∀ incs files,
  size (unvisited repo files) < fuel →
  is_Some (get_included_files repo fuel incs files).
Proof.
  induction fuel as [|fuel IH]; [lia|]. simpl.
  induction incs as [|i incs IHincs]; intros files Hsize; [by eexists|].
  rewrite for_each_cons.
  replace (visit_include repo (get_included_files repo fuel) files i) with
    (if bool_decide (uri i ∈ files) then Some files
     else match repo !! uri i with
          | Some fc => get_included_files repo fuel (includes fc) (files ++ [uri i])
          | None => Some (files ++ [uri i])
          end) by done.
  case_bool_decide as Hin; simpl.
  - by apply IHincs.
  - destruct (repo !! uri i) as [fc|] eqn:Hrepo.
    + pose proof (unvisited_step files (uri i) Hin (mk_is_Some _ _ Hrepo)) as Hlt.
      destruct (IH (includes fc) (files ++ [uri i])) as [files1 Hrec]; [lia|].
      rewrite Hrec. simpl. apply IHincs.
      apply get_included_files_traversed, traversed_subseteq in Hrec.
      pose proof (unvisited_mono _ _ Hrec). lia.
    + simpl. apply IHincs.
      assert (files ⊆ files ++ [uri i]) as Hsub by set_solver.
      pose proof (unvisited_mono _ _ Hsub). lia.
Qed.

End traversal.

Section visible.

Import Repository.

Variable repo : Repo.

Lemma foldl_app_concat {A} (ls : list (list A)) (acc : list A) :
  foldl (λ completion file_completions, completion ++ file_completions) acc ls
  = acc ++ concat ls.
Proof.
  revert acc. induction ls as [|l ls IH]; intros acc; simpl.
  - by rewrite app_nil_r.
  - by rewrite IH, app_assoc.
Qed.

Lemma set_add_elem_of (x y : string) (s : list string) :
  y ∈ set_add x s ↔ y = x ∨ y ∈ s.
Proof. unfold set_add. case_bool_decide; set_solver. Qed.

Lemma set_add_NoDup (x : string) (s : list string) :
  NoDup s → NoDup (set_add x s).
Proof.
  unfold set_add. case_bool_decide; [done|]. intros Hs.
  apply NoDup_app. split_and!; [done | | apply NoDup_singleton].
  by intros y Hy ->%list_elem_of_singleton.
Qed.

(** A set closed under include edges contains whatever its members reach. *)
Lemma closed_rtc (files : list string) u v :
  (∀ u v, u ∈ files → includes_edge repo u v → v ∈ files) →
  rtc (includes_edge repo) u v → u ∈ files → v ∈ files.
Proof. intros Hc. induction 1; eauto. Qed.

Lemma transitiveIncludes_inv u v :
  transitiveIncludes repo u v ↔
  ∃ fc i, repo !! u = Some fc ∧ i ∈ includes fc ∧
          rtc (includes_edge repo) (uri i) v.
Proof.
  unfold transitiveIncludes. split.
  - intros H.
    assert (∃ w, includes_edge repo u w ∧ rtc (includes_edge repo) w v)
      as (w & (fc & Hfc & (i & -> & Hi)%list_elem_of_fmap) & Hw).
    { inversion H; subst; eauto using rtc_refl, tc_rtc. }
    eauto.
  - intros (fc & i & Hfc & Hi & Hrtc). eapply tc_rtc_r; [|done].
    apply tc_once. exists fc. split; [done|]. apply list_elem_of_fmap. eauto.
Qed.

End visible.

(** C2. For every repository state and every file identity, the set of
    files whose tables get_all_completions concatenates has no duplicate
    and consists of the file itself and of the files reachable from it
    through include directives, cycles and diamonds included; the result
    is the concatenation, over these files, of the completions that the
    table of the file holds, in the order of the table, a file without
    table giving none. The traversal returns as soon as its depth budget
    exceeds the number of indexed files. *)
Theorem get_all_completions_visible (repo : Repository.Repo) (fuel : nat)
    (file : string) :
  size repo < fuel →
  ∃ files : list string,
    NoDup files ∧
    (∀ f, f ∈ files ↔ f = file ∨ Repository.transitiveIncludes repo file f) ∧
    Repository.get_all_completions repo fuel file
    = Some (concat
              ((λ f, from_option (λ fc, (Repository.completions fc).*2) []
                       (repo !! f)) <$> files)).
Proof.
  intros Hfuel.
  assert (∀ files : list string,
            Repository.get_file_completions repo <$> files
            = (λ f, from_option (λ fc, (Repository.completions fc).*2) []
                      (repo !! f)) <$> files) as Htables.
  { intros files. apply list_fmap_ext. intros _ f _.
    unfold Repository.get_file_completions. by destruct (repo !! f). }
  unfold Repository.get_all_completions, Repository.visible_files.
  destruct (repo !! file) as [fc|] eqn:Hfile.
  - destruct (get_included_files_total repo fuel (Repository.includes fc) [])
      as [files Hfiles].
    { unfold Repository.unvisited.
      replace (dom repo ∖ list_to_set []) with (dom repo) by set_solver.
      by rewrite size_dom. }
    rewrite Hfiles. simpl.
    apply get_included_files_traversed in Hfiles.
    destruct Hfiles as [_ Hn Hr Hs Hc].
    exists (Repository.set_add file files). split_and!.
    + apply set_add_NoDup, Hn, NoDup_nil_2.
    + intros f. rewrite set_add_elem_of, transitiveIncludes_inv.
      split; (intros [->|Hf]; [by left|right]).
      * destruct (Hs f Hf) as [?|(i & Hi & Hrtc)]; [set_solver|]. eauto.
      * destruct Hf as (fc' & i & Hfc' & Hi & Hrtc).
        assert (fc' = fc) as -> by congruence.
        eapply closed_rtc; [|done|by apply Hr].
        intros u v Hu. apply Hc; [done|set_solver].
    + by rewrite foldl_app_concat, Htables.
  - exists (Repository.set_add file []). split_and!.
    + apply set_add_NoDup, NoDup_nil_2.
    + intros f. rewrite set_add_elem_of, transitiveIncludes_inv. split.
      * intros [->|?]; [by left | set_solver].
      * intros [->|(fc & ? & ? & _)]; [by left | congruence].
    + cbn [mbind option_bind]. by rewrite foldl_app_concat, Htables.
Qed.

Lemma get_all_completions_visible_witness :
  size Repository.Sample.repo < 5 ∧
  ∃ files : list string,
    NoDup files ∧
    (∀ f, f ∈ files ↔
       f = Repository.Sample.uriD ∨
       Repository.transitiveIncludes Repository.Sample.repo
         Repository.Sample.uriD f) ∧
    Repository.get_all_completions Repository.Sample.repo 5
      Repository.Sample.uriD
    = Some (concat
              ((λ f, from_option (λ fc, (Repository.completions fc).*2) []
                       (Repository.Sample.repo !! f)) <$> files)).
Proof.
  assert (size Repository.Sample.repo < 5) as H by (vm_compute; lia).
  split; [exact H|].
  exact (get_all_completions_visible Repository.Sample.repo 5
           Repository.Sample.uriD H).
Defined.

Example get_all_completions_sample :
  Repository.name <$>
    default [] (Repository.get_all_completions Repository.Sample.repo 5
                  Repository.Sample.uriD)
  = ["FromA"; "FROM_B"; "g_c"; "E"].
Proof. vm_compute. reflexivity. Qed.

(** ** Indexing of includes that include each other *)

Section mutual_includes.

Import Repository.

Variable fsPath : string → string.
Variable parse_file : string → FileCompletions → bool → FileCompletions.

Variables a b : string.

Abbreviation parsed := (Repository.parsed fsPath parse_file).

(** Whatever directive names [a], its file includes [b], and conversely. *)
Hypothesis a_includes_b : ∀ i, uri i = a → b ∈ uri <$> includes (parsed i).
Hypothesis b_includes_a : ∀ i, uri i = b → a ∈ uri <$> includes (parsed i).

(** A call that returns has met neither file, and has indexed neither. *)
Lemma read_unscanned_imports_avoids fuel : ∀ repo completions repo',
  repo !! a = None → repo !! b = None →
  read_unscanned_imports fsPath parse_file fuel repo completions = Some repo' →
  repo' !! a = None ∧ repo' !! b = None ∧
  (a ∉ uri <$> includes completions) ∧ (b ∉ uri <$> includes completions).
Proof.
  induction fuel as [|fuel IH]; [done|].
  intros repo completions. simpl.
  generalize (includes completions) as incs. clear completions.
  intros incs. revert repo.
  induction incs as [|i incs IHincs]; intros repo repo' Ha Hb.
  - intros [= <-]. set_solver.
  - rewrite for_each_Some_cons. intros (repo1 & Hscan & Hrest).
    unfold scan_import in Hscan.
    destruct (repo !! uri i) as [fc|] eqn:Hi.
    + injection Hscan as <-.
      destruct (IHincs repo repo' Ha Hb Hrest) as (Ha' & Hb' & Hna & Hnb).
      split_and!; [done | done | ..]; rewrite fmap_cons, !not_elem_of_cons;
      (split; [intros Heq; congruence | done]).
    + change (parse_file _ _ _) with (parsed i) in Hscan.
      destruct (read_unscanned_imports fsPath parse_file fuel repo (parsed i))
        as [repo2|] eqn:Hrec; [|done].
      injection Hscan as <-.
      destruct (IH _ _ _ Ha Hb Hrec) as (Ha2 & Hb2 & Hna2 & Hnb2).
      assert (uri i ≠ a) as Hia.
      { intros Heq. by apply Hnb2, a_includes_b. }
      assert (uri i ≠ b) as Hib.
      { intros Heq. by apply Hna2, b_includes_a. }
      destruct (IHincs (<[uri i:=parsed i]> repo2) repo')
        as (Ha' & Hb' & Hna & Hnb).
      * by rewrite lookup_insert_ne.
      * by rewrite lookup_insert_ne.
      * done.
      * rewrite fmap_cons, !not_elem_of_cons. done.
Qed.

(** While neither file is indexed, a call on a table that includes one of
    them does not return, whatever the depth allowed. *)
Lemma read_unscanned_imports_mutual fuel repo completions :
  repo !! a = None → repo !! b = None →
  a ∈ uri <$> includes completions ∨ b ∈ uri <$> includes completions →
  read_unscanned_imports fsPath parse_file fuel repo completions = None.
Proof.
  intros Ha Hb Hin.
  destruct (read_unscanned_imports fsPath parse_file fuel repo completions)
    as [repo'|] eqn:Hrun; [|done].
  destruct (read_unscanned_imports_avoids _ _ _ _ Ha Hb Hrun) as (_ & _ & ? & ?).
  tauto.
Qed.

End mutual_includes.

(** C1. A.inc and B.inc include each other and neither is indexed yet:
    read_unscanned_imports on the table of A does not return, whatever
    depth of recursion is allowed. The repository map is the only guard of
    the recursion, and a file enters it after the recursive call on its
    includes. *)
Theorem read_unscanned_imports_cycle (fuel : nat) :
  Repository.read_unscanned_imports Repository.Sample.fsPath
    Repository.Sample.parse_file fuel ∅ Repository.Sample.tableA = None.
Proof.
  apply (read_unscanned_imports_mutual _ _ Repository.Sample.uriA
           Repository.Sample.uriB).
  - intros [u bi] Hu. simpl in Hu. subst u. vm_compute. set_solver.
  - intros [u bi] Hu. simpl in Hu. subst u. vm_compute. set_solver.
  - done.
  - done.
  - right. vm_compute. set_solver.
Qed.

(** Opening A.inc in an empty repository runs into that call. *)
Example handle_new_document_cycle (fuel : nat) :
  Repository.handle_new_document Repository.Sample.fsPath
    Repository.Sample.parse_file Repository.Sample.parse_blob fuel ∅
    (Repository.Sample.document Repository.Sample.uriA "#include <B>")
  = None.
Proof.
  unfold Repository.handle_new_document.
  rewrite (read_unscanned_imports_mutual _ _ Repository.Sample.uriA
             Repository.Sample.uriB); [done | | | done | done |].
  - intros [u bi] Hu. simpl in Hu. subst u. vm_compute. set_solver.
  - intros [u bi] Hu. simpl in Hu. subst u. vm_compute. set_solver.
  - right. vm_compute. set_solver.
Qed.

(** ** Completion and signature help of the repository *)

Section repository_queries.

Import Repository.

Variable repo : Repo.

(** The traversal behind a query returns once the depth budget exceeds
    the number of indexed files. *)
Lemma get_all_completions_total fuel file :
  size repo < fuel → is_Some (get_all_completions repo fuel file).
Proof.
  intros Hfuel. unfold get_all_completions, visible_files.
  destruct (repo !! file) as [fc|]; [|by eexists].
  destruct (get_included_files_total repo fuel (includes fc) []) as [fs ->].
  - unfold unvisited.
    replace (dom repo ∖ list_to_set []) with (dom repo) by set_solver.
    by rewrite size_dom.
  - by eexists.
Qed.

(** What get_completions returns does not mention the line. *)
Lemma get_completions_all fuel document position l :
  split_newline (getText document) !! line position = Some l →
  get_completions repo fuel document position
  = match get_all_completions repo fuel (doc_uri document) with
    | Some all =>
        Return ((λ c, to_completion_item c (doc_uri document)) <$> all)
    | None => NoFuel
    end.
Proof.
  intros Hl. unfold get_completions. rewrite Hl.
  destruct (get_all_completions _ _ _); [|done].
  by destruct (method_scan _ _).
Qed.

End repository_queries.

(** C10. get_completions returns the entries of all the visible
    completions, whatever the line under the cursor is: two requests on
    the same file, on lines that exist, return the same list, whether the
    backward scan finds a method call or not. *)
Theorem get_completions_same_list (repo : Repository.Repo) (fuel : nat)
    (document document' : TextDocument) (position position' : Position)
    (l l' : list ascii) (all : list Repository.Completion) :
  split_newline (getText document) !! line position = Some l →
  split_newline (getText document') !! line position' = Some l' →
  doc_uri document' = doc_uri document →
  Repository.get_all_completions repo fuel (doc_uri document) = Some all →
  Repository.get_completions repo fuel document position
  = Return ((λ c, Repository.to_completion_item c (doc_uri document)) <$> all)
  ∧ Repository.get_completions repo fuel document' position'
    = Repository.get_completions repo fuel document position.
Proof.
  intros Hl Hl' Huri Hall.
  rewrite (get_completions_all repo fuel document position l Hl).
  rewrite (get_completions_all repo fuel document' position' l' Hl').
  by rewrite Huri, Hall.
Qed.

Lemma get_completions_same_list_witness :
  let d := Repository.Sample.document Repository.Sample.uriMain "obj.Fo" in
  let d' := Repository.Sample.document Repository.Sample.uriMain "Fo" in
  let p := {| line := 0; character := 6 |} in
  let p' := {| line := 0; character := 2 |} in
  Repository.method_scan (getText d) 5 = true ∧
  Repository.method_scan (getText d') 1 = false ∧
  Repository.get_completions Repository.Sample.calls 2 d p
  = Return ((λ c, Repository.to_completion_item c Repository.Sample.uriMain)
              <$> [Repository.Sample.DoThing; Repository.Sample.Foo;
                   Repository.Sample.Bar]) ∧
  Repository.get_completions Repository.Sample.calls 2 d' p'
  = Repository.get_completions Repository.Sample.calls 2 d p.
Proof.
  intros d d' p p'. split; [reflexivity|]. split; [reflexivity|].
  apply (get_completions_same_list Repository.Sample.calls 2 d d' p p'
           (getText d) (getText d')
           [Repository.Sample.DoThing; Repository.Sample.Foo;
            Repository.Sample.Bar]);
    vm_compute; reflexivity.
Defined.

(** ** The backward scan of signature help *)

Section signature_scan_facts.

Import Repository.

Lemma trailing_identifier_snoc pre c :
  trailing_identifier (pre ++ [c])
  = if is_word c then trailing_identifier pre ++ [c] else [].
Proof.
  unfold trailing_identifier. rewrite reverse_snoc. simpl.
  destruct (is_word c); [|done]. by rewrite reverse_cons.
Qed.

Lemma count_commas_snoc args c :
  count_commas (args ++ [c])
  = count_commas args + (if bool_decide (c = ","%char) then 1 else 0).
Proof.
  unfold count_commas. rewrite filter_app, length_app. f_equal.
  rewrite filter_cons. case_decide; case_bool_decide; done.
Qed.

(** First phase: over a text without opening parenthesis the scan counts
    the commas. *)
Lemma signature_scan_args args : ∀ pre suffix m k,
  "("%char ∉ args →
  signature_scan (pre ++ args ++ suffix) (length pre + length args) false m k
  = signature_scan (pre ++ args ++ suffix) (length pre) false m
      (k + count_commas args).
Proof.
  induction args as [|c args IH] using rev_ind; intros pre suffix m k Hno.
  - simpl. by rewrite !Nat.add_0_r.
  - rewrite length_app. simpl.
    replace (length pre + (length args + 1)) with (S (length pre + length args))
      by lia.
    rewrite <- (app_assoc args [c] suffix). simpl.
    assert ((pre ++ args ++ c :: suffix) !! (length pre + length args) = Some c)
      as Hc.
    { rewrite app_assoc, <- length_app. apply list_lookup_middle. done. }
    rewrite Hc.
    rewrite bool_decide_eq_false_2; [|intros [= ->]; set_solver].
    rewrite count_commas_snoc.
    case_bool_decide as Hcomma.
    + rewrite bool_decide_eq_true_2 by congruence.
      rewrite IH by set_solver. f_equal. lia.
    + rewrite bool_decide_eq_false_2 by congruence.
      rewrite IH by set_solver. f_equal. lia.
Qed.

(** Second phase: the identifier characters before the parenthesis are
    collected, up to the first other character. *)
Lemma signature_scan_name pre : ∀ suffix m k,
  signature_scan (pre ++ suffix) (length pre) true m k
  = Return (trailing_identifier pre ++ m, k).
Proof.
  induction pre as [|c pre IH] using rev_ind; intros suffix m k; [done|].
  rewrite length_app. simpl.
  replace (length pre + 1) with (S (length pre)) by lia.
  rewrite <- app_assoc. simpl.
  rewrite list_lookup_middle by done.
  rewrite trailing_identifier_snoc.
  destruct (is_word c); [|done].
  rewrite IH. by rewrite <- app_assoc.
Qed.

Lemma lookup_last_of_middle (pre : list ascii) x args rest :
  (pre ++ x :: args ++ rest) !! (length pre + length args)
  = last (x :: args).
Proof.
  rewrite lookup_app_r by lia.
  replace (length pre + length args - length pre) with (length args) by lia.
  rewrite app_comm_cons, lookup_app_l by (simpl; lia).
  by rewrite last_lookup.
Qed.

(** The scan of a call that is still open, from the cursor. *)
Lemma signature_target_open pre args rest :
  "("%char ∉ args → last args ≠ Some ")"%char →
  head rest ≠ Some "("%char → head rest ≠ Some ","%char →
  signature_target (pre ++ "("%char :: args ++ rest)
    (length pre + 1 + length args)
  = Return (Some (trailing_identifier pre), count_commas args).
Proof.
  intros Hno Hlast Hp Hc. unfold signature_target.
  rewrite bool_decide_eq_false_2.
  2:{ replace (length pre + 1 + length args) with (S (length pre + length args))
        by lia.
      cbn [char_before]. rewrite (lookup_last_of_middle pre "("%char args rest).
      destruct args as [|a args]; [done|]. exact Hlast. }
  cbn [signature_scan].
  assert ((pre ++ "("%char :: args ++ rest) !! (length pre + 1 + length args)
          = head rest) as Hhead.
  { replace (pre ++ "("%char :: args ++ rest)
      with ((pre ++ "("%char :: args) ++ rest) by (by rewrite <- app_assoc).
    rewrite lookup_app_r by (rewrite length_app; simpl; lia).
    rewrite head_lookup. f_equal. rewrite length_app. simpl. lia. }
  rewrite Hhead.
  rewrite !bool_decide_eq_false_2 by done.
  replace (pre ++ "("%char :: args ++ rest)
    with ((pre ++ ["("%char]) ++ args ++ rest) by (by rewrite <- app_assoc).
  replace (length pre + 1 + length args)
    with (length (pre ++ ["("%char]) + length args)
    by (rewrite length_app; simpl; lia).
  rewrite signature_scan_args by done.
  rewrite length_app. simpl.
  replace (length pre + 1) with (S (length pre)) by lia.
  cbn [signature_scan].
  rewrite <- (app_assoc pre ["("%char]). simpl.
  rewrite list_lookup_middle by done.
  rewrite bool_decide_eq_true_2 by done.
  rewrite signature_scan_name. by rewrite app_nil_r.
Qed.







End signature_scan_facts.



(** The examples of the specification: the third argument of an open
    call, and a call that is closed. *)
Example provideSignatureHelp_third_argument :
  Repository.provideSignatureHelp Repository.Sample.calls 2
    (Repository.Sample.document Repository.Sample.uriMain "DoThing(1, 2, ")
    {| line := 0; character := 14 |}
  = Return {| signatures :=
                [Repository.get_signature Repository.Sample.DoThing];
              activeSignature := 0; activeParameter := 2 |}.
Proof. vm_compute. reflexivity. Qed.

(** The character at the cursor index is read too: with the cursor
    before the comma of [DoThing(1, 2)], that comma is counted; with the
    cursor before the parenthesis of [Foo(1], Foo is reported. *)
Example provideSignatureHelp_at_cursor_index :
  Repository.provideSignatureHelp Repository.Sample.calls 2
    (Repository.Sample.document Repository.Sample.uriMain "DoThing(1, 2)")
    {| line := 0; character := 9 |}
  = Return {| signatures :=
                [Repository.get_signature Repository.Sample.DoThing];
              activeSignature := 0; activeParameter := 1 |} ∧
  Repository.provideSignatureHelp Repository.Sample.calls 2
    (Repository.Sample.document Repository.Sample.uriMain "Foo(1")
    {| line := 0; character := 3 |}
  = Return {| signatures := [Repository.get_signature Repository.Sample.Foo];
              activeSignature := 0; activeParameter := 0 |}.
Proof. split; vm_compute; reflexivity. Qed.

Example provideSignatureHelp_closed_call :
  Repository.provideSignatureHelp Repository.Sample.calls 2
    (Repository.Sample.document Repository.Sample.uriMain "DoThing()")
    {| line := 0; character := 9 |}
  = Return Repository.no_signature.
Proof. vm_compute. reflexivity. Qed.


(** * Properties of the position queries *)

Section ranges.

Import Items.

Lemma isBeforeOrEqual_spec p q :
  isBeforeOrEqual p q = true ↔
  line p < line q ∨ (line p = line q ∧ character p ≤ character q).
Proof.
  unfold isBeforeOrEqual.
  rewrite orb_true_iff, andb_true_iff, Nat.ltb_lt, Nat.eqb_eq, Nat.leb_le.
  done.
Qed.

Lemma isBeforeOrEqual_refl p : isBeforeOrEqual p p = true.
Proof. apply isBeforeOrEqual_spec. lia. Qed.

Lemma isBeforeOrEqual_trans p q r :
  isBeforeOrEqual p q = true → isBeforeOrEqual q r = true →
  isBeforeOrEqual p r = true.
Proof. rewrite !isBeforeOrEqual_spec. lia. Qed.

(** A range that contains a position contains itself. *)
Lemma contains_range_refl r p :
  contains r p = true → contains_range r r = true.
Proof.
  unfold contains_range, contains. rewrite !andb_true_iff.
  intros [H1 H2]. pose proof (isBeforeOrEqual_trans _ _ _ H1 H2).
  by rewrite !isBeforeOrEqual_refl.
Qed.

End ranges.

Section find_facts.

Context {A : Type} (f : A → bool).

Lemma find_None_iff (l : list A) :
  List.find f l = None ↔ ∀ x, x ∈ l → f x = false.
Proof.
  induction l as [|a l IH]; simpl.
  - split; [|done]. intros _ x Hx. by apply elem_of_nil in Hx.
  - destruct (f a) eqn:Ha.
    + split; [done|]. intros H. specialize (H a). rewrite Ha in H.
      discriminate H. set_solver.
    + rewrite IH. split.
      * intros H x [->|Hx]%elem_of_cons; auto.
      * intros H x Hx. apply H. set_solver.
Qed.

Lemma find_Some_iff (l : list A) (e : A) :
  List.find f l = Some e ↔
  ∃ before after, l = before ++ e :: after ∧ f e = true ∧
                  ∀ x, x ∈ before → f x = false.
Proof.
  induction l as [|a l IH]; simpl.
  - split; [done|]. intros (before & after & H & _). by destruct before.
  - destruct (f a) eqn:Ha.
    + split.
      * intros [= <-]. exists [], l. split_and!; [done | done |].
        intros x Hx. by apply elem_of_nil in Hx.
      * intros (before & after & H & He & Hb).
        destruct before as [|b before]; simpl in H.
        -- by injection H as <- _.
        -- injection H as <- _. rewrite Hb in Ha; [done | set_solver].
    + rewrite IH. split.
      * intros (before & after & -> & He & Hb).
        exists (a :: before), after. split_and!; [done | done |].
        intros x [->|Hx]%elem_of_cons; auto.
      * intros (before & after & H & He & Hb).
        destruct before as [|b before]; simpl in H.
        -- injection H as <- _. congruence.
        -- injection H as <- ->. exists before, after.
           split_and!; [done | done |]. intros x Hx. apply Hb. set_solver.
Qed.

End find_facts.

(** C5, as the code has it. getLastFunc returns the first Function or
    Method item of the document, in the order of the item list, whose
    full range contains the position, and undefined when there is none.
    When at most one such item contains the position, as in a source
    whose callables do not nest, that item is the innermost one. *)
Theorem getLastFunc_first (position : Position) (document : TextDocument)
    (allItems : list Items.SPItem) :
  (Items.getLastFunc position document allItems = None ↔
   ∀ e, e ∈ allItems → Items.is_callable_at position document e = false) ∧
  (∀ e, Items.getLastFunc position document allItems = Some e ↔
        ∃ before after,
          allItems = before ++ e :: after ∧
          Items.is_callable_at position document e = true ∧
          ∀ x, x ∈ before → Items.is_callable_at position document x = false) ∧
  (∀ e,
     (∀ x y, x ∈ allItems → y ∈ allItems →
             Items.is_callable_at position document x = true →
             Items.is_callable_at position document y = true → x = y) →
     Items.getLastFunc position document allItems = Some e →
     Items.innermost_callable position document allItems e).
Proof.
  unfold Items.getLastFunc. split_and!.
  - apply find_None_iff.
  - intros e. apply find_Some_iff.
  - intros e Hone (before & after & -> & He & _)%find_Some_iff.
    split_and!; [set_solver | done |].
    intros e' He' Hcall. rewrite (Hone e' e He'); [| set_solver | done | done].
    apply (contains_range_refl _ position).
    unfold Items.is_callable_at in He. by apply andb_true_iff in He as [_ ?].
Qed.

Lemma getLastFunc_first_witness :
  let p := Items.Sample.at_ 16 3 in
  let d := Items.Sample.document "" in
  Items.getLastFunc p d Items.Sample.program = Some Items.Sample.Main ∧
  Items.innermost_callable p d Items.Sample.program Items.Sample.Main.
Proof.
  intros p d.
  assert (Items.getLastFunc p d Items.Sample.program = Some Items.Sample.Main)
    as Hfind by reflexivity.
  split; [exact Hfind|].
  destruct (getLastFunc_first p d Items.Sample.program) as (_ & _ & Hin).
  apply Hin; [|exact Hfind].
  intros x y Hx Hy Hcx Hcy.
  unfold Items.Sample.program in Hx, Hy.
  repeat (apply elem_of_cons in Hx as [->|Hx]; [try discriminate Hcx|]);
    [|by apply elem_of_nil in Hx].
  repeat (apply elem_of_cons in Hy as [->|Hy]; [try discriminate Hcy|]);
    [done|by apply elem_of_nil in Hy].
Defined.

(** C5, as stated, fails when a callable lies within another that comes
    first in the list: the outer one is returned, and it is not the
    innermost. *)
Lemma getLastFunc_not_innermost :
  let p := Items.Sample.at_ 3 0 in
  let d := Items.Sample.document "" in
  let allItems := [Items.Sample.outer; Items.Sample.inner] in
  Items.is_callable_at p d Items.Sample.inner = true ∧
  Items.getLastFunc p d allItems = Some Items.Sample.outer ∧
  ¬ Items.innermost_callable p d allItems Items.Sample.outer.
Proof.
  intros p d allItems. split_and!; [reflexivity | reflexivity |].
  intros (_ & _ & Hin).
  specialize (Hin Items.Sample.inner).
  assert (Items.contains_range (Items.fullRange Items.Sample.inner)
            (Items.fullRange Items.Sample.outer) = false) as Hno
    by reflexivity.
  rewrite Hin in Hno; [done | set_solver | reflexivity].
Qed.

(** ** The completion provider *)

Section item_sets.

Import Items.

Lemma cleaned_app items items' :
  cleaned (items ++ items') = cleaned items ++ cleaned items'.
Proof.
  unfold cleaned, items_delete_undefined, defined_items.
  by rewrite filter_app, omap_app.
Qed.

Lemma cleaned_add x items :
  cleaned (items_add x items) = cleaned items ++ option_list x.
Proof.
  unfold items_add. destruct x as [c|].
  - rewrite cleaned_app. f_equal.
  - destruct (existsb _ items); [by rewrite app_nil_r|].
    rewrite cleaned_app. f_equal.
Qed.

(** The loops of getMethodItems and getNonMethodItems: the entries of the
    items that pass the condition, in the order of the items. *)
Lemma cleaned_loop (cond : SPItem → bool) (f : SPItem → option CompletionItem)
    (allItems : list SPItem) : ∀ items,
  cleaned (foldl (λ items item,
                    if cond item then items_add (f item) items else items)
             items allItems)
  = cleaned items ++ omap f (filter (λ item, cond item = true) allItems).
Proof.
  induction allItems as [|item allItems IH]; intros items; simpl.
  - by rewrite app_nil_r.
  - rewrite IH. rewrite filter_cons.
    destruct (cond item) eqn:Hc; case_decide; try done.
    rewrite cleaned_add, <- app_assoc. f_equal. simpl.
    by destruct (f item).
Qed.

Lemma filter_bool {A} (f : A → bool) (l : list A) :
  filter (λ x, f x = true) l = List.filter f l.
Proof.
  induction l as [|a l IH]; [done|].
  rewrite filter_cons. simpl. rewrite IH.
  destruct (f a); case_decide; congruence.
Qed.

Lemma includes_ref_spec (variableTypes : list SPItem) (x : option nat) :
  includes_ref variableTypes x = true ↔
  ∃ t, t ∈ variableTypes ∧ x = Some (ref t).
Proof.
  unfold includes_ref. destruct x as [r|].
  - rewrite existsb_exists. split.
    + intros (t & Ht%list_elem_of_In & Heq%Nat.eqb_eq). subst r. eauto.
    + intros (t & Ht & [= ->]). exists t.
      split; [by apply list_elem_of_In | by apply Nat.eqb_eq].
  - split; [done | by intros (? & _ & ?)].
Qed.

Lemma names_methodmap_spec (allItems : list SPItem) (words : list string) :
  names_methodmap allItems words = true ↔ static_call allItems words.
Proof.
  unfold names_methodmap, static_call.
  rewrite andb_true_iff, Nat.eqb_eq, bool_decide_eq_true. split.
  - intros [Hlen [e He]].
    destruct words as [|w [|? ?]]; try done.
    apply find_Some_iff in He as (before & after & -> & Hf & _).
    apply andb_true_iff in Hf as [Hn%bool_decide_eq_true Hk%bool_decide_eq_true].
    exists w, e. simpl in Hn. split_and!; [done | set_solver | congruence | done].
  - intros (w & e & -> & He & Hn & Hk). split; [done|].
    destruct (List.find _ allItems) eqn:Hfind; [by eexists|].
    rewrite find_None_iff in Hfind. specialize (Hfind e He).
    apply andb_false_iff in Hfind as [H%bool_decide_eq_false|H%bool_decide_eq_false].
    + simpl in H. congruence.
    + done.
Qed.

(** The condition of getMethodItems says what the specification says. *)
Lemma is_method_item_spec (allItems chain : list SPItem)
    (words : list string) (item : SPItem) :
  is_method_item chain (names_methodmap allItems words) item = true ↔
  completes_on chain (static_call allItems words) item.
Proof.
  unfold is_method_item, completes_on.
  rewrite !andb_true_iff, bool_decide_eq_true, negb_true_iff.
  rewrite includes_ref_spec, <- names_methodmap_spec.
  assert (includes_ref chain (Some (ref item)) = false ↔
          ¬ ∃ t, t ∈ chain ∧ ref t = ref item) as ->.
  { rewrite <- not_true_iff_false, includes_ref_spec.
    split; intros H (t & Ht & Heq); apply H; exists t; split; congruence. }
  assert (kind item ∈ MP ↔ kind item = KMethod ∨ kind item = KProperty) as ->.
  { unfold MP. set_solver. }
  rewrite eqb_true_iff.
  split.
  - intros [[[Hk Hp] Hc] Hs]. split_and!; try done. rewrite Hs. done.
  - intros (Hk & Hp & Hc & Hs). split_and!; try done.
    destruct (names_methodmap allItems words), (static_test (detail item));
      try done; [by destruct Hs as [_ ->] | by destruct Hs as [-> _]].
Qed.

End item_sets.

Section provider_facts.

Import Items.

Variable ItemsRepository : Type.
Variable getAllItems : ItemsRepository → string → list SPItem.
Variable lineAt : TextDocument → nat → option (list ascii).
Variable isMethodCall : list ascii → Position → bool.
Variable getTypeOfVariable :
  list ascii → Position → list SPItem → option SPItem → option SPItem →
  option string * list string.
Variable getAllInheritances : SPItem → list SPItem → list SPItem.
Variable toCompletionItem : SPItem → option SPItem → option CompletionItem.

Abbreviation provider :=
  (getCompletionListFromPosition ItemsRepository getAllItems lineAt
     isMethodCall getTypeOfVariable getAllInheritances toCompletionItem).

Variable itemsRepo : ItemsRepository.
Variable document : TextDocument.
Variable position : Position.

Abbreviation allItems := (getAllItems itemsRepo (doc_uri document)).
Abbreviation lastFunc := (getLastFunc position document allItems).
Abbreviation lastType :=
  (getLastEnumStructNameOrMethodMap position (doc_fsPath document) allItems).

Lemma getMethodItems_eq variableTypes isMethodMap lf :
  getMethodItems toCompletionItem allItems variableTypes isMethodMap lf
  = omap (λ item, toCompletionItem item lf)
      (filter (λ item, is_method_item variableTypes isMethodMap item = true)
         allItems).
Proof. unfold getMethodItems. apply (cleaned_loop _ _ _ []). Qed.

Lemma getNonMethodItems_eq lf :
  getNonMethodItems toCompletionItem allItems lf
  = omap (λ item, toCompletionItem item lf)
      (filter (λ item, negb (bool_decide (kind item ∈ MP)) = true) allItems).
Proof. unfold getNonMethodItems. apply (cleaned_loop _ _ _ []). Qed.

(** The selection of getMethodItems, read off its condition. At a method
    call whose receiver resolves to a methodmap, the completions are the
    entries, in the order of the items, of exactly the items that are a
    method or a property, whose parent is in the inheritance chain of the
    receiver's type, that are not themselves a type of the chain, and
    whose static marker agrees with the call being made on the name of a
    methodmap. *)
Theorem getCompletionListFromPosition_method_call
    (text : list ascii) (variableType : option string) (words : list string)
    (receiverType : SPItem) :
  lineAt document (line position) = Some text →
  isMethodCall text position = true →
  getTypeOfVariable text position allItems lastFunc lastType
  = (variableType, words) →
  find_type allItems variableType = Some receiverType →
  kind receiverType = KClass →
  ∃ selected : list SPItem,
    provider itemsRepo document position
    = Return (omap (λ item, toCompletionItem item lastFunc) selected) ∧
    (∃ keep : SPItem → bool, selected = List.filter keep allItems ∧
       ∀ item, keep item = true ↔
         completes_on (getAllInheritances receiverType allItems)
           (static_call allItems words) item) ∧
    (∀ item, item ∈ selected ↔
       item ∈ allItems ∧
       completes_on (getAllInheritances receiverType allItems)
         (static_call allItems words) item).
Proof.
  intros Hline Hcall Htype Hfind Hclass.
  set (chain := getAllInheritances receiverType allItems).
  set (keep := is_method_item chain (names_methodmap allItems words)).
  exists (List.filter keep allItems). split_and!.
  - unfold getCompletionListFromPosition.
    rewrite Hline, Hcall. simpl. rewrite Htype, Hfind.
    rewrite bool_decide_eq_true_2 by done.
    rewrite getMethodItems_eq. do 2 f_equal. apply filter_bool.
  - exists keep. split; [done|]. intros item. apply is_method_item_spec.
  - intros item. rewrite <- filter_bool, list_elem_of_filter.
    unfold keep. rewrite is_method_item_spec. tauto.
Qed.

(** C9. At a method call whose receiver's type names no visible
    methodmap or enum struct, getCompletionListFromPosition throws: the
    lookup of the type yields undefined, whose kind is read next. *)
Theorem getCompletionListFromPosition_throws
    (text : list ascii) (variableType : option string) (words : list string) :
  lineAt document (line position) = Some text →
  isMethodCall text position = true →
  getTypeOfVariable text position allItems lastFunc lastType
  = (variableType, words) →
  (∀ e, e ∈ allItems → kind e = KClass ∨ kind e = KStruct →
        Some (name e) ≠ variableType) →
  provider itemsRepo document position = Throw.
Proof.
  intros Hline Hcall Htype Hnone.
  unfold getCompletionListFromPosition.
  rewrite Hline, Hcall. simpl. rewrite Htype.
  assert (find_type allItems variableType = None) as ->; [|done].
  apply find_None_iff. intros e He.
  apply andb_false_iff.
  destruct (decide (kind e ∈ [KClass; KStruct])) as [Hk|Hk].
  - right. apply bool_decide_eq_false. apply (Hnone e He). set_solver.
  - left. by apply bool_decide_eq_false.
Qed.

(** Away from a method call the completions are the entries of the items
    that are neither a method nor a property. *)
Lemma getCompletionListFromPosition_other (text : list ascii) :
  lineAt document (line position) = Some text →
  isMethodCall text position = false →
  provider itemsRepo document position
  = Return (omap (λ item, toCompletionItem item lastFunc)
              (filter (λ item, kind item ≠ KMethod ∧ kind item ≠ KProperty)
                 allItems)).
Proof.
  intros Hline Hcall. unfold getCompletionListFromPosition.
  rewrite Hline, Hcall. simpl. rewrite getNonMethodItems_eq. do 2 f_equal.
  apply list_filter_iff. intros item.
  rewrite negb_true_iff, bool_decide_eq_false. unfold MP. set_solver.
Qed.

End provider_facts.

Lemma getCompletionListFromPosition_method_call_witness :
  let d := Items.Sample.document "obj." in
  let p := Items.Sample.at_ 0 4 in
  Items.Sample.lineAt d (line p) = Some (getText d) ∧
  Items.Sample.isMethodCall (getText d) p = true ∧
  Items.find_type Items.Sample.program (Some "Foo") = Some Items.Sample.Foo ∧
  Items.kind Items.Sample.Foo = KClass ∧
  ∃ selected : list Items.SPItem,
    Items.Sample.complete Items.Sample.program d p
    = Return (omap (λ item, Items.Sample.toCompletionItem item None) selected) ∧
    (∀ item, item ∈ selected ↔
       item ∈ Items.Sample.program ∧
       Items.completes_on [Items.Sample.Foo; Items.Sample.Base]
         (Items.static_call Items.Sample.program ["obj"]) item).
Proof.
  intros d p.
  assert (Items.Sample.lineAt d (line p) = Some (getText d)) as H1
    by reflexivity.
  assert (Items.Sample.isMethodCall (getText d) p = true) as H2
    by reflexivity.
  assert (Items.find_type Items.Sample.program (Some "Foo")
          = Some Items.Sample.Foo) as H3 by reflexivity.
  assert (Items.kind Items.Sample.Foo = KClass) as H4 by reflexivity.
  split_and!; [exact H1 | exact H2 | exact H3 | exact H4 |].
  destruct (getCompletionListFromPosition_method_call (list Items.SPItem)
              Items.Sample.getAllItems Items.Sample.lineAt
              Items.Sample.isMethodCall Items.Sample.getTypeOfVariable
              Items.Sample.getAllInheritances Items.Sample.toCompletionItem
              Items.Sample.program d p (getText d) (Some "Foo") ["obj"]
              Items.Sample.Foo H1 H2 eq_refl H3 H4)
    as (selected & Hres & _ & Hsel).
  exists selected. split; [exact Hres | exact Hsel].
Defined.

(** The request of the specification: behind [obj.], with obj a Foo and
    Foo extending Base, the instance methods of both complete and the
    static one does not; on the name of the methodmap it is the reverse. *)
Example complete_instance_call :
  Items.Sample.complete Items.Sample.program (Items.Sample.document "obj.")
    (Items.Sample.at_ 0 4)
  = Return [plain_item "Close" KMethod; plain_item "Get" KMethod].
Proof. vm_compute. reflexivity. Qed.

Example complete_static_call :
  Items.Sample.complete Items.Sample.program (Items.Sample.document "Foo.")
    (Items.Sample.at_ 0 4)
  = Return [plain_item "Make" KMethod].
Proof. vm_compute. reflexivity. Qed.

Lemma getCompletionListFromPosition_throws_witness :
  let d := Items.Sample.document "handle." in
  let p := Items.Sample.at_ 0 7 in
  Items.Sample.lineAt d (line p) = Some (getText d) ∧
  Items.Sample.isMethodCall (getText d) p = true ∧
  Items.Sample.getTypeOfVariable (getText d) p Items.Sample.program None None
  = (None, ["handle"]) ∧
  Items.Sample.complete Items.Sample.program d p = Throw.
Proof.
  intros d p.
  assert (Items.Sample.lineAt d (line p) = Some (getText d)) as H1
    by reflexivity.
  assert (Items.Sample.isMethodCall (getText d) p = true) as H2
    by reflexivity.
  assert (Items.Sample.getTypeOfVariable (getText d) p Items.Sample.program
            None None = (None, ["handle"])) as H3 by reflexivity.
  split_and!; [exact H1 | exact H2 | exact H3 |].
  apply (getCompletionListFromPosition_throws (list Items.SPItem)
           Items.Sample.getAllItems Items.Sample.lineAt
           Items.Sample.isMethodCall Items.Sample.getTypeOfVariable
           Items.Sample.getAllInheritances Items.Sample.toCompletionItem
           Items.Sample.program d p (getText d) None ["handle"] H1 H2 H3).
  intros e _ _. discriminate.
Defined.

(** C8, as the code has it. Away from a method call, the provider
    returns the entries of all the visible items that are neither a
    method nor a property. In the repository, a request from a file
    returns one entry for each visible completion; the entry of a
    variable of another file has an empty label in place of the name, and
    the entry of a define has the name of the define whatever file the
    request comes from. *)
Theorem completions_file_scope :
  (∀ (ItemsRepository : Type)
     (getAllItems : ItemsRepository → string → list Items.SPItem)
     (lineAt : TextDocument → nat → option (list ascii))
     (isMethodCall : list ascii → Position → bool)
     (getTypeOfVariable :
        list ascii → Position → list Items.SPItem → option Items.SPItem →
        option Items.SPItem → option string * list string)
     (getAllInheritances : Items.SPItem → list Items.SPItem → list Items.SPItem)
     (toCompletionItem : Items.SPItem → option Items.SPItem → option CompletionItem)
     (itemsRepo : ItemsRepository) (document : TextDocument)
     (position : Position) (text : list ascii),
     lineAt document (line position) = Some text →
     isMethodCall text position = false →
     Items.getCompletionListFromPosition ItemsRepository getAllItems lineAt
       isMethodCall getTypeOfVariable getAllInheritances toCompletionItem
       itemsRepo document position
     = Return
         (omap (λ item,
                  toCompletionItem item
                    (Items.getLastFunc position document
                       (getAllItems itemsRepo (doc_uri document))))
            (filter (λ item, Items.kind item ≠ KMethod
                             ∧ Items.kind item ≠ KProperty)
               (getAllItems itemsRepo (doc_uri document))))) ∧
  (∀ (repo : Repository.Repo) (fuel : nat) (document : TextDocument)
     (position : Position) (text : list ascii)
     (all : list Repository.Completion),
     split_newline (getText document) !! line position = Some text →
     Repository.get_all_completions repo fuel (doc_uri document) = Some all →
     Repository.get_completions repo fuel document position
     = Return ((λ c, Repository.to_completion_item c (doc_uri document))
                 <$> all)) ∧
  (∀ n file requesting, file ≠ requesting →
     Repository.to_completion_item (Repository.VariableCompletion n file)
       requesting = plain_item "" KVariable) ∧
  (∀ n requesting,
     Repository.to_completion_item (Repository.DefineCompletion n) requesting
     = plain_item n KVariable).
Proof.
  split_and!.
  - intros. by eapply getCompletionListFromPosition_other.
  - intros repo fuel document position text all Hl Hall.
    by rewrite (get_completions_all repo fuel document position text Hl), Hall.
  - intros n file requesting Hne. simpl.
    by rewrite bool_decide_eq_false_2.
  - done.
Qed.

Lemma completions_file_scope_witness :
  let d := Repository.Sample.document Repository.Sample.uriD "" in
  let p := {| line := 0; character := 0 |} in
  let d' := Items.Sample.document "x = " in
  let p' := Items.Sample.at_ 0 4 in
  Items.Sample.lineAt d' (line p') = Some (getText d') ∧
  Items.Sample.isMethodCall (getText d') p' = false ∧
  Items.Sample.complete Items.Sample.program d' p'
  = Return [plain_item "Base" KClass; plain_item "Foo" KClass;
            plain_item "Main" KFunction; plain_item "obj" KVariable] ∧
  Repository.Sample.uriC ≠ Repository.Sample.uriD ∧
  Repository.get_completions Repository.Sample.repo 5 d p
  = Return ((λ c, Repository.to_completion_item c Repository.Sample.uriD)
              <$> [Repository.FunctionCompletion "FromA" "void FromA()" "" [];
                   Repository.DefineCompletion "FROM_B";
                   Repository.VariableCompletion "g_c" Repository.Sample.uriC;
                   Repository.EnumCompletion "E" Repository.Sample.uriD]) ∧
  Repository.to_completion_item
    (Repository.VariableCompletion "g_c" Repository.Sample.uriC)
    Repository.Sample.uriD = plain_item "" KVariable.
Proof.
  intros d p d' p'.
  assert (Items.Sample.lineAt d' (line p') = Some (getText d')) as H1
    by reflexivity.
  assert (Items.Sample.isMethodCall (getText d') p' = false) as H2
    by reflexivity.
  assert (Repository.Sample.uriC ≠ Repository.Sample.uriD) as Hne by done.
  destruct completions_file_scope as (Hprov & Hrepo & Hvar & _).
  split_and!; [exact H1 | exact H2 | | exact Hne | | exact (Hvar "g_c" _ _ Hne)].
  - unfold Items.Sample.complete.
    rewrite (Hprov _ _ _ _ _ _ _ Items.Sample.program d' p' (getText d') H1 H2).
    vm_compute. reflexivity.
  - apply (Hrepo Repository.Sample.repo 5 d p []); vm_compute; reflexivity.
Defined.

(** C8, as stated, fails for a define: A.inc includes B.inc, which
    declares FROM_B, and a request from A.inc, away from any method call,
    lists FROM_B. *)
Lemma define_of_included_file_completes :
  let d := Repository.Sample.document Repository.Sample.uriA "" in
  let p := {| line := 0; character := 0 |} in
  Repository.DefineCompletion "FROM_B"
    ∈ Repository.file_get_completions Repository.Sample.tableB ∧
  (Repository.DefineCompletion "FROM_B"
     ∉ Repository.file_get_completions Repository.Sample.tableA) ∧
  Repository.Sample.uriA ≠ Repository.Sample.uriB ∧
  Repository.method_scan (trim (getText d)) (length (trim (getText d)) - 1)
  = false ∧
  ∃ items,
    Repository.get_completions Repository.Sample.repo 5 d p = Return items ∧
    plain_item "FROM_B" KVariable ∈ items.
Proof.
  intros d p. split_and!.
  - vm_compute. set_solver.
  - vm_compute. intros [H|H]%elem_of_cons; [done | by apply elem_of_nil in H].
  - done.
  - reflexivity.
  - eexists. split; [vm_compute; reflexivity | set_solver].
Qed.

(** * Properties of the define extractor *)

Section scan_facts.

Import Define.

Lemma advance_nil st : advance st [] = st.
Proof. destruct st. unfold advance. simpl. by rewrite app_nil_r. Qed.

Lemma advance_advance st run run' :
  advance (advance st run) run' = advance st (run ++ run').
Proof.
  destruct st. unfold advance. simpl.
  rewrite length_app, app_assoc. f_equal. lia.
Qed.

(** The loop ends when the index reaches the end of the line. *)
Lemma scan_end budget st :
  length (cur_line st) ≤ i st → scan budget st = Exit st.
Proof.
  intros H. destruct budget; [done|]. simpl.
  by rewrite lookup_ge_None_2.
Qed.

(** One iteration on a character of value text. *)
Lemma scan_text_char budget st c :
  blockComment st = false → cur_line st !! i st = Some c →
  text_char (openDQuote st) (openSQuote st) c = true →
  scan (S budget) st = scan budget (advance st [c]).
Proof.
  destruct st as [l k v d oD oS bC rl ln]. simpl. intros -> Hc Htext.
  rewrite Hc. unfold text_char in Htext. unfold advance. simpl.
  destruct (bool_decide (c = dquote)), (bool_decide (c = "'"%char)),
    (bool_decide (c = "/"%char)), oD, oS; simpl in *;
    rewrite ?andb_false_r; simpl; try done.
Qed.

(** A run of value text is appended to the value, one iteration for
    each character. *)
Lemma scan_text_run run : ∀ budget st pre suffix,
  blockComment st = false →
  cur_line st = pre ++ run ++ suffix → i st = length pre →
  forallb (text_char (openDQuote st) (openSQuote st)) run = true →
  scan (length run + budget) st = scan budget (advance st run).
Proof.
  induction run as [|c run IH]; intros budget st pre suffix Hb Hline Hi Hrun.
  - by rewrite advance_nil.
  - simpl in Hrun. apply andb_true_iff in Hrun as [Hc Hrun].
    change (length (c :: run) + budget) with (S (length run + budget)).
    rewrite (scan_text_char _ st c); [|done| |done].
    2:{ rewrite Hline, Hi. by apply list_lookup_middle. }
    rewrite (IH budget (advance st [c]) (pre ++ [c]) suffix); try done.
    + by rewrite advance_advance.
    + simpl. by rewrite Hline, <- app_assoc.
    + simpl. rewrite Hi, length_app. simpl. lia.
Qed.

(** One iteration on a quote that opens or closes. *)
Lemma scan_toggle budget st q :
  blockComment st = false → cur_line st !! i st = Some q →
  (q = dquote ∧ openSQuote st = false) ∨
  (q = "'"%char ∧ openDQuote st = false) →
  scan (S budget) st = scan budget (toggle st q).
Proof.
  destruct st as [l k v d oD oS bC rl ln]. simpl. intros -> Hq Hcase.
  rewrite Hq. unfold toggle. simpl.
  destruct Hcase as [[-> ->]|[-> ->]]; simpl; done.
Qed.

(** The characters of a literal, between its quotes, are value text. *)
Lemma literal_text q s :
  q = dquote ∨ q = "'"%char → q ∉ s →
  forallb (text_char (bool_decide (q = dquote))
             (negb (bool_decide (q = dquote)))) s = true.
Proof.
  intros Hq Hs. apply forallb_forall. intros c Hc%list_elem_of_In.
  assert (c ≠ q) as Hne by (intros ->; done).
  unfold text_char. destruct Hq as [-> | ->]; simpl.
  - rewrite bool_decide_eq_false_2 by done. simpl.
    by rewrite andb_false_r, orb_true_r.
  - rewrite andb_false_r. simpl.
    rewrite (bool_decide_eq_false_2 (c = "'"%char)) by done. simpl.
    by rewrite orb_true_r.
Qed.

End scan_facts.

Section readDefine_facts.

Import Items Define.

Variable makeDefinitionRange : Parser → string → list ascii → Range.
Variable positiveRange : nat → nat → nat → Range.

(** The scan of a line that ends with a literal: the text [mid] between
    the match and the literal, then the literal, quotes included. *)
Lemma scan_literal (parser : Parser) (m : RegExpMatchArray)
    (mid s : list ascii) (q : ascii) (budget : nat) :
  q = dquote ∨ q = "'"%char → q ∉ s →
  forallb (text_char false false) mid = true →
  let line := match0 m ++ mid ++ q :: s ++ [q] in
  scan (length mid + S (length s + S budget)) (initial parser m line)
  = Exit {| cur_line := line; i := length line;
            cur_value := mid ++ q :: s ++ [q]; cur_description := [];
            openDQuote := false; openSQuote := false; blockComment := false;
            rest_lines := lines parser; cur_lineNb := lineNb parser |}.
Proof.
  intros Hq Hs Hmid line.
  rewrite (scan_text_run mid _ _ (match0 m) (q :: s ++ [q])); try done.
  rewrite (scan_toggle _ _ q); [|done| |].
  2:{ simpl. rewrite Nat.add_comm. unfold line.
      rewrite app_assoc, <- length_app. by apply list_lookup_middle. }
  2:{ simpl. destruct Hq; auto. }
  rewrite (scan_text_run s _ _ (match0 m ++ mid ++ [q]) [q]); try done.
  2:{ simpl. unfold line. by rewrite <- !app_assoc. }
  2:{ simpl. rewrite !length_app. simpl. lia. }
  2:{ simpl. destruct Hq as [-> | ->]; simpl.
      - by apply (literal_text dquote); [left|].
      - by apply (literal_text "'"%char); [right|]. }
  rewrite (scan_toggle _ _ q); [|done| |].
  2:{ simpl. unfold line.
      replace (match0 m ++ mid ++ q :: s ++ [q])
        with ((match0 m ++ mid ++ q :: s) ++ [q] ++ [])
        by (by rewrite <- !app_assoc).
      replace (length s + S (length mid + length (match0 m)))
        with (length (match0 m ++ mid ++ q :: s))
        by (rewrite !length_app; simpl; lia).
      by apply list_lookup_middle. }
  2:{ simpl. destruct Hq as [-> | ->]; simpl; auto. }
  rewrite scan_end.
  2:{ simpl. unfold line. rewrite !length_app. simpl. rewrite length_app.
      simpl. lia. }
  f_equal. unfold toggle, advance, initial. simpl. f_equal.
  - unfold line. rewrite !length_app. simpl. rewrite length_app. simpl. lia.
  - by rewrite <- !app_assoc.
  - destruct Hq as [-> | ->]; done.
  - destruct Hq as [-> | ->]; done.
Qed.

(** From an opening quote, outside any comment, the scan appends the
    whole literal to the value, one iteration for each character, and
    goes on behind the closing quote as it was before the literal. *)
Lemma scan_quoted (budget : nat) (st : Scan) (pre s rest : list ascii)
    (q : ascii) :
  q = dquote ∨ q = "'"%char → q ∉ s →
  blockComment st = false → openDQuote st = false → openSQuote st = false →
  cur_line st = pre ++ q :: s ++ q :: rest → i st = length pre →
  scan (S (length s + S budget)) st
  = scan budget (advance st (q :: s ++ [q])).
Proof.
  intros Hq Hs Hb HD HS Hline Hi.
  rewrite (scan_toggle _ _ q); [|done| |].
  2:{ rewrite Hline, Hi. by apply list_lookup_middle. }
  2:{ destruct Hq; auto. }
  rewrite (scan_text_run s _ _ (pre ++ [q]) (q :: rest)); try done.
  2:{ simpl. by rewrite Hline, <- app_assoc. }
  2:{ simpl. rewrite Hi, length_app. simpl. lia. }
  2:{ simpl. rewrite HD, HS. destruct Hq as [-> | ->]; simpl.
      - by apply (literal_text dquote); [left|].
      - by apply (literal_text "'"%char); [right|]. }
  rewrite (scan_toggle _ _ q); [|done| |].
  2:{ simpl. rewrite Hline, Hi.
      replace (pre ++ q :: s ++ q :: rest) with ((pre ++ q :: s) ++ q :: rest)
        by (by rewrite <- app_assoc).
      replace (length s + S (length pre)) with (length (pre ++ q :: s))
        by (rewrite length_app; simpl; lia).
      by apply list_lookup_middle. }
  2:{ simpl. rewrite HD, HS. destruct Hq as [-> | ->]; simpl; auto. }
  f_equal. destruct st as [l k v d oD oS bC rl ln]. simpl in *. subst.
  unfold toggle, advance. simpl. f_equal.
  - rewrite length_app. simpl. lia.
  - by rewrite <- !app_assoc.
  - destruct Hq as [-> | ->]; done.
  - destruct Hq as [-> | ->]; done.
Qed.

(** What the code does achieve. A literal in double or single quotes
    that holds no quote of its own kind goes to the value whole, quotes
    included, whatever else it holds between its quotes, two slashes or
    the opening of a block comment for one: from its opening quote,
    read outside any comment, the scan appends it and goes on behind the
    closing quote. A define line that ends with such a literal, and that
    stays within the cap on iterations, yields an item whose value is
    the text behind the match followed by the whole literal, with an
    empty description. *)
Theorem readDefine_string_literal (parser : Parser) (m : RegExpMatchArray)
    (mid s : list ascii) (q : ascii) :
  q = dquote ∨ q = "'"%char →
  q ∉ s →
  (∀ budget st pre rest,
     blockComment st = false →
     openDQuote st = false → openSQuote st = false →
     cur_line st = pre ++ q :: s ++ q :: rest → i st = length pre →
     scan (S (length s + S budget)) st
     = scan budget (advance st (q :: s ++ [q]))) ∧
  ((∀ c, c ∈ mid → c ≠ dquote ∧ c ≠ "'"%char ∧ c ≠ "/"%char) →
   length mid + length s + 2 ≤ iteration_cap →
   ∃ item,
     readDefine makeDefinitionRange positiveRange parser m
       (match0 m ++ mid ++ q :: s ++ [q])
     = {| lines := lines parser; lineNb := lineNb parser;
          filePath := filePath parser; IsBuiltIn := IsBuiltIn parser;
          fileItems :=
            Repository.map_set (match1 m) (OfDefine item)
              (fileItems parser) |} ∧
     define_name item = match1 m ∧
     value item = mid ++ q :: s ++ [q] ∧
     description item = []).
Proof.
  intros Hq Hs. split.
  - intros budget st pre rest Hb HD HS Hline Hi. by eapply scan_quoted.
  - intros Hmid Hcap. unfold readDefine.
    replace iteration_cap
      with (length mid + S (length s
              + S (iteration_cap - (length mid + length s + 2)))) by lia.
    rewrite scan_literal; [|done|done|].
    + eexists. split; [reflexivity|]. done.
    + apply forallb_forall. intros c Hc%list_elem_of_In.
      destruct (Hmid c Hc) as (H1 & H2 & H3). unfold text_char.
      by rewrite !bool_decide_eq_false_2.
Qed.

(** C4 at an input that breaks it. The comment behind the define is not
    closed, on its line or on the one line that remains, which is empty.
    The loop moves to the empty line, where its condition fails at once,
    and the item is registered. *)
Theorem readDefine_unterminated_before_empty_line :
  let line := Sample.text "#define X /* note" in
  let parser := Sample.parser [[]] in
  end_comment_match line = None ∧
  end_comment_match [] = None ∧
  ∃ item,
    readDefine makeDefinitionRange positiveRange parser Sample.defines_X line
    = {| lines := []; lineNb := 8; filePath := filePath parser;
         IsBuiltIn := false; fileItems := [("X", OfDefine item)] |} ∧
    value item = Sample.text " " ∧
    description item = Sample.text " note".
Proof.
  intros line parser. split_and!; [reflexivity | reflexivity |].
  eexists. split; [vm_compute; reflexivity | done].
Qed.

(** One iteration inside a block comment that the line does not close,
    when a line remains: the scan moves to that line. *)
Lemma scan_comment_next budget st next more :
  blockComment st = true → i st < length (cur_line st) →
  end_comment_match (slice_from (i st) (cur_line st)) = None →
  rest_lines st = next :: more →
  scan (S budget) st
  = scan budget
      {| cur_line := next; i := 0; cur_value := cur_value st;
         cur_description :=
           cur_description st ++ trimEnd (slice_from (i st) (cur_line st));
         openDQuote := openDQuote st; openSQuote := openSQuote st;
         blockComment := true; rest_lines := more;
         cur_lineNb := S (cur_lineNb st) |}.
Proof.
  destruct st as [l k v d oD oS bC rl ln]. simpl.
  intros -> Hk Hnone ->.
  destruct (lookup_lt_is_Some_2 l k Hk) as [c ->].
  by rewrite !andb_false_r, Hnone.
Qed.

(** The same when no line remains: the function returns. *)
Lemma scan_comment_abort budget st :
  blockComment st = true → i st < length (cur_line st) →
  end_comment_match (slice_from (i st) (cur_line st)) = None →
  rest_lines st = [] →
  ∃ st', scan (S budget) st = Abort st'.
Proof.
  destruct st as [l k v d oD oS bC rl ln]. simpl.
  intros -> Hk Hnone ->.
  destruct (lookup_lt_is_Some_2 l k Hk) as [c ->].
  rewrite !andb_false_r, Hnone. by eexists.
Qed.

(** What the code does achieve: inside a block comment that neither the
    rest of the line nor any remaining line closes, when the remaining
    lines are not empty and fewer than the iterations left, the scan
    returns from inside the loop, and no item is built. *)
Lemma scan_unterminated (remaining : list (list ascii)) : ∀ budget st,
  blockComment st = true → i st < length (cur_line st) →
  end_comment_match (slice_from (i st) (cur_line st)) = None →
  rest_lines st = remaining →
  (∀ l, l ∈ remaining → l ≠ [] ∧ end_comment_match l = None) →
  length remaining < budget →
  ∃ st', scan budget st = Abort st'.
Proof.
  induction remaining as [|next more IH];
    intros budget st Hb Hi Hnone Hrest Hlines Hbudget;
    (destruct budget as [|budget]; [simpl in Hbudget; lia|]).
  - by apply scan_comment_abort.
  - rewrite (scan_comment_next _ _ next more) by done.
    destruct (Hlines next) as [Hne Hnext]; [set_solver|].
    apply IH; simpl; try done.
    + destruct next; [done | simpl; lia].
    + intros l Hl. apply Hlines. set_solver.
    + simpl in Hbudget. lia.
Qed.

End readDefine_facts.

Lemma readDefine_string_literal_witness :
  let s := Define.Sample.text "http://a" in
  (Define.dquote ∉ s) ∧
  length (@nil ascii) + length s + 2 ≤ Define.iteration_cap ∧
  ∃ item,
    Define.readDefine Define.Sample.makeDefinitionRange
      Define.Sample.positiveRange (Define.Sample.parser [])
      Define.Sample.defines_X_blank Define.Sample.url_line
    = {| Define.lines := []; Define.lineNb := 7;
         Define.filePath := "/project/main.sp"; Define.IsBuiltIn := false;
         Define.fileItems := [("X", Define.OfDefine item)] |} ∧
    Define.define_name item = "X" ∧
    Define.value item = Define.dquote :: s ++ [Define.dquote] ∧
    Define.description item = [].
Proof.
  intros s.
  assert (Define.dquote ∉ s) as Hs
    by (apply (bool_decide_unpack (Define.dquote ∉ s)); vm_compute; exact I).
  assert (length (@nil ascii) + length s + 2 ≤ Define.iteration_cap) as Hcap
    by (apply Nat.leb_le; vm_compute; reflexivity).
  split; [exact Hs|]. split; [exact Hcap|].
  destruct (readDefine_string_literal Define.Sample.makeDefinitionRange
              Define.Sample.positiveRange (Define.Sample.parser [])
              Define.Sample.defines_X_blank [] s Define.dquote
              (or_introl eq_refl) Hs)
    as [_ Hliteral].
  apply Hliteral; [|exact Hcap].
  intros c Hc. by apply elem_of_nil in Hc.
Defined.

(** The define of the specification, for a match that ends with the
    name: the value is the blank behind the name and the whole literal. *)
Example readDefine_url :
  ∃ item,
    Define.fileItems
      (Define.readDefine Define.Sample.makeDefinitionRange
         Define.Sample.positiveRange (Define.Sample.parser [])
         Define.Sample.defines_X Define.Sample.url_line)
    = [("X", Define.OfDefine item)] ∧
    Define.value item
    = " "%char :: Define.dquote :: Define.Sample.text "http://a"
        ++ [Define.dquote] ∧
    Define.description item = [].
Proof. eexists. split; [vm_compute; reflexivity | done]. Qed.

(** Outside a literal the two slashes do start a comment. *)
Example readDefine_line_comment :
  ∃ item,
    Define.fileItems
      (Define.readDefine Define.Sample.makeDefinitionRange
         Define.Sample.positiveRange (Define.Sample.parser [])
         Define.Sample.defines_X (Define.Sample.text "#define X 5 // five"))
    = [("X", Define.OfDefine item)] ∧
    Define.value item = Define.Sample.text " 5 " ∧
    Define.description item = Define.Sample.text " five".
Proof. eexists. split; [vm_compute; reflexivity | done]. Qed.

(** A comment that is not closed, before lines that are not empty: the
    function returns and the table is as it was. *)
Example readDefine_unterminated :
  Define.readDefine Define.Sample.makeDefinitionRange
    Define.Sample.positiveRange
    (Define.Sample.parser [Define.Sample.text "more"; Define.Sample.text "end"])
    Define.Sample.defines_X (Define.Sample.text "#define X 5 /* five")
  = {| Define.lines := []; Define.lineNb := 10;
       Define.filePath := "/project/main.sp"; Define.IsBuiltIn := false;
       Define.fileItems := [] |}.
Proof. vm_compute. reflexivity. Qed.

(** * Further properties of the repository *)

Section map_facts.

Import Repository.

Context {V : Type}.

Lemma map_get_set_eq (k : string) (v : V) (m : list (string * V)) :
  map_get k (map_set k v m) = Some v.
Proof.
  induction m as [|[k' v'] m IH]; simpl.
  - by rewrite bool_decide_eq_true_2.
  - case_bool_decide as Hk; simpl.
    + by rewrite bool_decide_eq_true_2.
    + by rewrite bool_decide_eq_false_2.
Qed.

Lemma map_get_set_ne (k k' : string) (v : V) (m : list (string * V)) :
  k' ≠ k → map_get k' (map_set k v m) = map_get k' m.
Proof.
  intros Hne. induction m as [|[k0 v0] m IH]; simpl.
  - by rewrite bool_decide_eq_false_2.
  - case_bool_decide as Hk; simpl.
    + subst k0. by rewrite !bool_decide_eq_false_2.
    + by rewrite IH.
Qed.

Lemma map_get_None (k : string) (m : list (string * V)) :
  map_get k m = None ↔ k ∉ m.*1.
Proof.
  induction m as [|[k' v'] m IH]; simpl.
  - split; [set_solver | done].
  - case_bool_decide as Hk.
    + subst. split; [done | set_solver].
    + rewrite IH. set_solver.
Qed.

(** Setting a key that is absent appends the entry. *)
Lemma map_set_absent (k : string) (v : V) (m : list (string * V)) :
  map_get k m = None → map_set k v m = m ++ [(k, v)].
Proof.
  induction m as [|[k' v'] m IH]; simpl; [done|].
  case_bool_decide; [done|]. intros Hn. by rewrite IH.
Qed.

(** Setting a key that is present replaces the value where it is. *)
Lemma map_set_present (k : string) (v : V) (m : list (string * V)) :
  is_Some (map_get k m) →
  ∃ before old after,
    m = before ++ (k, old) :: after ∧ (k ∉ before.*1) ∧
    map_set k v m = before ++ (k, v) :: after.
Proof.
  induction m as [|[k' v'] m IH]; simpl; [by intros [? ?]|].
  case_bool_decide as Hk.
  - subst. intros _. exists [], v', m. split_and!; [done | set_solver | done].
  - intros Hs. destruct (IH Hs) as (before & old & after & -> & Hb & ->).
    exists ((k', v') :: before), old, after. split_and!; [done | set_solver | done].
Qed.

Lemma map_set_keys_NoDup (k : string) (v : V) (m : list (string * V)) :
  NoDup m.*1 → NoDup (map_set k v m).*1.
Proof.
  intros Hnd. destruct (map_get k m) as [old|] eqn:Hget.
  - destruct (map_set_present k v m) as (b & o & a & -> & _ & ->); [by eexists|].
    by rewrite fmap_app in *.
  - rewrite map_set_absent by done. rewrite fmap_app. simpl.
    apply NoDup_app. split_and!; [done | | apply NoDup_singleton].
    apply map_get_None in Hget. set_solver.
Qed.

End map_facts.

(** X1. A completion added under an identifier is the one that get
    returns for it, and the other identifiers keep theirs. Adding under
    an identifier that the table has replaces the completion where it
    stands, so that the last declaration of a name is the one listed;
    under a new identifier the completion comes last. *)
Theorem add_then_get (id : string) (c : Repository.Completion)
    (fc : Repository.FileCompletions) :
  Repository.get id (Repository.add id c fc) = Some c ∧
  (∀ id', id' ≠ id →
     Repository.get id' (Repository.add id c fc) = Repository.get id' fc) ∧
  (Repository.get id fc = None →
     Repository.file_get_completions (Repository.add id c fc)
     = Repository.file_get_completions fc ++ [c]) ∧
  (∀ old, Repository.get id fc = Some old →
     ∃ before after,
       Repository.file_get_completions fc = before ++ old :: after ∧
       Repository.file_get_completions (Repository.add id c fc)
       = before ++ c :: after) ∧
  Repository.includes (Repository.add id c fc) = Repository.includes fc.
Proof.
  unfold Repository.get, Repository.add, Repository.file_get_completions.
  simpl. split_and!.
  - apply map_get_set_eq.
  - intros id' Hne. by apply map_get_set_ne.
  - intros Hnone. rewrite map_set_absent by done. by rewrite fmap_app.
  - intros old Hold.
    destruct (map_set_present id c (Repository.completions fc))
      as (before & old' & after & Hm & Hb & ->); [by eexists|].
    rewrite Hm in Hold |- *.
    assert (old' = old) as ->.
    { clear -Hold Hb. induction before as [|[k v] before IH]; simpl in *.
      - rewrite bool_decide_eq_true_2 in Hold by done. congruence.
      - rewrite bool_decide_eq_false_2 in Hold by set_solver.
        apply IH; [done | set_solver]. }
    exists before.*2, after.*2. by rewrite !fmap_app.
  - done.
Qed.

Lemma add_then_get_witness :
  let fc := Repository.Sample.table Repository.Sample.uriMain
              [Repository.Sample.DoThing; Repository.Sample.Foo] [] in
  let c := Repository.FunctionCompletion "DoThing" "int DoThing()" "" [] in
  Repository.get "DoThing" fc = Some Repository.Sample.DoThing ∧
  Repository.file_get_completions (Repository.add "DoThing" c fc)
  = [c; Repository.Sample.Foo].
Proof.
  intros fc c.
  assert (Repository.get "DoThing" fc = Some Repository.Sample.DoThing) as Hold
    by reflexivity.
  split; [exact Hold|].
  destruct (add_then_get "DoThing" c fc) as (_ & _ & _ & Hrepl & _).
  destruct (Hrepl _ Hold) as (before & after & Hfc & ->).
  change (Repository.file_get_completions fc)
    with ([] ++ Repository.Sample.DoThing :: [Repository.Sample.Foo]) in Hfc.
  destruct before as [|b before].
  - simpl in Hfc. injection Hfc as <-. done.
  - exfalso. simpl in Hfc. injection Hfc as <- Hrest.
    destruct before as [|b' before]; simpl in Hrest; [discriminate Hrest|].
    injection Hrest as _ Hrest. by destruct before.
Defined.

Section query_edges.

Import Repository.

Lemma split_newline_length (text : list ascii) :
  length (split_newline text)
  = S (length (filter (λ c, c = "010"%char) text)).
Proof.
  induction text as [|c text IH]; [done|]. simpl.
  rewrite filter_cons. case_bool_decide; case_decide; try done.
  - simpl. by rewrite IH.
  - destruct (split_newline text); simpl in *; [done | lia].
Qed.

(** The second phase of the scan runs below the index of a parenthesis
    of the line, where every character is defined. *)
Lemma signature_scan_second (line : list ascii) (n : nat) : ∀ m k,
  n ≤ length line → signature_scan line n true m k ≠ Throw.
Proof.
  induction n as [|n IH]; intros m k Hn; [done|]. simpl.
  destruct (lookup_lt_is_Some_2 line n) as [c ->]; [lia|].
  destruct (is_word c); [apply IH; lia | done].
Qed.

Lemma signature_scan_first (line : list ascii) (n : nat) : ∀ m k,
  signature_scan line n false m k ≠ Throw.
Proof.
  induction n as [|n IH]; intros m k; [done|]. simpl.
  case_bool_decide as Hp.
  - apply signature_scan_second. apply lookup_lt_Some in Hp. lia.
  - case_bool_decide; apply IH.
Qed.

(** The scan of provideSignatureHelp returns for every line and cursor. *)
Lemma signature_target_returns (line : list ascii) (character : nat) :
  ∃ method parameter_count,
    signature_target line character = Return (method, parameter_count).
Proof.
  unfold signature_target. case_bool_decide; [by eexists _, _|].
  pose proof (signature_scan_first line (S character) [] 0) as Hno.
  destruct (signature_scan line (S character) false [] 0)
    as [[method count]| |] eqn:Hscan; [by eexists _, _ | done |].
  exfalso. clear Hno. revert Hscan.
  generalize (S character), false, (@nil ascii), 0. clear.
  intros n. induction n as [|n IH]; intros b m k; [done|]. simpl.
  destruct b.
  - destruct (line !! n) as [c|]; [|done]. destruct (is_word c); [apply IH|done].
  - repeat case_bool_decide; apply IH.
Qed.

End query_edges.

(** X2. A request on a file that was never indexed is answered with
    nothing, whatever the depth budget: no visible completion, an empty
    completion list and no signature. *)
Theorem never_indexed_file (repo : Repository.Repo) (fuel : nat)
    (document : TextDocument) (position : Position) (l : list ascii) :
  repo !! doc_uri document = None →
  Repository.get_all_completions repo fuel (doc_uri document) = Some [] ∧
  (split_newline (getText document) !! line position = Some l →
   Repository.get_completions repo fuel document position = Return [] ∧
   Repository.provideSignatureHelp repo fuel document position
   = Return Repository.no_signature).
Proof.
  intros Hnone.
  assert (Repository.get_all_completions repo fuel (doc_uri document)
          = Some []) as Hall.
  { unfold Repository.get_all_completions, Repository.visible_files.
    rewrite Hnone. simpl. unfold Repository.get_file_completions.
    by rewrite Hnone. }
  split; [done|]. intros Hl. split.
  - by rewrite (get_completions_all repo fuel document position l Hl), Hall.
  - unfold Repository.provideSignatureHelp. rewrite Hl.
    destruct (signature_target_returns l (character position))
      as (method & count & ->).
    by rewrite Hall.
Qed.

Lemma never_indexed_file_witness :
  let d := Repository.Sample.document "file:///project/other.sp" "Foo(1, " in
  let p := {| line := 0; character := 7 |} in
  Repository.Sample.calls !! doc_uri d = None ∧
  Repository.get_completions Repository.Sample.calls 0 d p = Return [] ∧
  Repository.provideSignatureHelp Repository.Sample.calls 0 d p
  = Return Repository.no_signature.
Proof.
  intros d p.
  assert (Repository.Sample.calls !! doc_uri d = None) as Hnone
    by (vm_compute; reflexivity).
  split; [exact Hnone|].
  destruct (never_indexed_file Repository.Sample.calls 0 d p (getText d) Hnone)
    as [_ Hq].
  apply Hq. reflexivity.
Defined.

(** X3. With a depth budget above the number of indexed files, the two
    queries of the repository throw exactly when the line of the position
    is beyond the last line of the text, that is, when the position's line
    exceeds the number of line feeds; in every other case they return. *)
Theorem queries_throw_beyond_text (repo : Repository.Repo) (fuel : nat)
    (document : TextDocument) (position : Position) :
  size repo < fuel →
  let line_feeds :=
    length (filter (λ c, c = "010"%char) (getText document)) in
  (Repository.get_completions repo fuel document position = Throw ↔
   line_feeds < line position) ∧
  (Repository.provideSignatureHelp repo fuel document position = Throw ↔
   line_feeds < line position) ∧
  (line position ≤ line_feeds →
   (∃ items,
      Repository.get_completions repo fuel document position = Return items) ∧
   (∃ help,
      Repository.provideSignatureHelp repo fuel document position
      = Return help)).
Proof.
  intros Hfuel line_feeds.
  destruct (get_all_completions_total repo fuel (doc_uri document) Hfuel)
    as [all Hall].
  pose proof (split_newline_length (getText document)) as Hlen.
  fold line_feeds in Hlen.
  destruct (split_newline (getText document) !! line position) as [l|] eqn:Hl.
  - apply lookup_lt_Some in Hl as Hlt.
    assert (Repository.get_completions repo fuel document position
            = Return ((λ c, Repository.to_completion_item c (doc_uri document))
                        <$> all)) as Hgc
      by (by rewrite (get_completions_all repo fuel document position l Hl), Hall).
    assert (∃ help, Repository.provideSignatureHelp repo fuel document position
                    = Return help) as [help Hsh].
    { unfold Repository.provideSignatureHelp. rewrite Hl.
      destruct (signature_target_returns l (character position))
        as (method & count & ->).
      rewrite Hall. destruct (filter _ all); by eexists. }
    rewrite Hgc, Hsh. split_and!.
    + split; [done | lia].
    + split; [done | lia].
    + intros _. split; by eexists.
  - apply lookup_ge_None in Hl as Hge.
    assert (Repository.get_completions repo fuel document position = Throw)
      as -> by (unfold Repository.get_completions; by rewrite Hl).
    assert (Repository.provideSignatureHelp repo fuel document position = Throw)
      as -> by (unfold Repository.provideSignatureHelp; by rewrite Hl).
    split_and!.
    + split; [lia | done].
    + split; [lia | done].
    + lia.
Qed.

Lemma queries_throw_beyond_text_witness :
  let d := Repository.Sample.document Repository.Sample.uriMain "Foo(" in
  size Repository.Sample.calls < 2 ∧
  Repository.get_completions Repository.Sample.calls 2 d
    {| line := 1; character := 0 |} = Throw ∧
  ∃ help,
    Repository.provideSignatureHelp Repository.Sample.calls 2 d
      {| line := 0; character := 4 |} = Return help.
Proof.
  intros d.
  assert (size Repository.Sample.calls < 2) as Hsize by (vm_compute; lia).
  split; [exact Hsize|]. split.
  - apply (queries_throw_beyond_text Repository.Sample.calls 2 d
             {| line := 1; character := 0 |} Hsize). vm_compute. lia.
  - apply (queries_throw_beyond_text Repository.Sample.calls 2 d
             {| line := 0; character := 4 |} Hsize). vm_compute. lia.
Defined.

(** The files reached by the traversal of a file that has a table are
    the files it includes, directly or not. *)
Lemma get_all_completions_visible_files (repo : Repository.Repo) (fuel : nat)
    (file : string) :
  size repo < fuel →
  ∃ files,
    (match repo !! file with
     | Some fc => Repository.get_included_files repo fuel
                    (Repository.includes fc) []
     | None => Some []
     end) = Some files ∧
    ∀ f, Repository.transitiveIncludes repo file f → f ∈ files.
Proof.
  intros Hfuel. destruct (repo !! file) as [fc|] eqn:Hfile.
  - destruct (get_included_files_total repo fuel (Repository.includes fc) [])
      as [files Hfiles].
    { unfold Repository.unvisited.
      replace (dom repo ∖ list_to_set []) with (dom repo) by set_solver.
      by rewrite size_dom. }
    exists files. split; [done|].
    apply get_included_files_traversed in Hfiles.
    destruct Hfiles as [_ _ Hr _ Hc].
    intros f (fc' & i & Hfc' & Hi & Hrtc)%transitiveIncludes_inv.
    assert (fc' = fc) as -> by congruence.
    eapply closed_rtc; [|done|by apply Hr].
    intros u v Hu. apply Hc; [done|set_solver].
  - exists []. split; [done|].
    intros f (fc' & i & Hfc' & _)%transitiveIncludes_inv. congruence.
Qed.

(** X4. get_all_completions concatenates the tables of the files that
    are reachable from the requesting file through includes, each of
    them once, and the items of the requesting file come last, behind
    all of them. When the file is reachable from itself, its items are
    not appended: they stand once, where the file was visited among the
    includes. The items of a file are the completions its table holds,
    in the order of the table, and none for a file without table. *)
Theorem own_completions_last (repo : Repository.Repo) (fuel : nat)
    (file : string) :
  let items_of (f : string) : list Repository.Completion :=
    from_option (λ fc, (Repository.completions fc).*2) [] (repo !! f) in
  size repo < fuel →
  ∃ files : list string,
    NoDup files ∧
    (∀ f, f ∈ files ↔ Repository.transitiveIncludes repo file f) ∧
    (¬ Repository.transitiveIncludes repo file file →
     Repository.get_all_completions repo fuel file
     = Some (concat (items_of <$> files) ++ items_of file)) ∧
    (Repository.transitiveIncludes repo file file →
     ∃ before after,
       files = before ++ file :: after ∧
       Repository.get_all_completions repo fuel file
       = Some (concat (items_of <$> before) ++ items_of file
               ++ concat (items_of <$> after))).
Proof.
  intros items_of Hfuel.
  assert (∀ files : list string,
            Repository.get_file_completions repo <$> files
            = items_of <$> files) as Htables.
  { intros files. apply list_fmap_ext. intros _ f _.
    unfold Repository.get_file_completions, items_of.
    by destruct (repo !! f). }
  assert (∃ files,
            (match repo !! file with
             | Some fc => Repository.get_included_files repo fuel
                            (Repository.includes fc) []
             | None => Some []
             end) = Some files ∧
            NoDup files ∧
            ∀ f, f ∈ files ↔ Repository.transitiveIncludes repo file f)
    as (files & Hfiles & Hnd & Hmem).
  { destruct (get_all_completions_visible_files repo fuel file Hfuel)
      as (files & Hfiles & Hreach).
    exists files. split; [done|].
    destruct (repo !! file) as [fc|] eqn:Hfile.
    - apply get_included_files_traversed in Hfiles.
      destruct Hfiles as [_ Hn _ Hs _]. split; [apply Hn, NoDup_nil_2|].
      intros f. split; [|apply Hreach].
      intros Hf. apply transitiveIncludes_inv.
      destruct (Hs f Hf) as [?|(i & Hi & Hrtc)]; [set_solver|]. eauto.
    - injection Hfiles as <-. split; [apply NoDup_nil_2|].
      intros f. split; [set_solver | apply Hreach]. }
  assert (Repository.get_all_completions repo fuel file
          = Some (concat (items_of <$> Repository.set_add file files)))
    as Hall.
  { unfold Repository.get_all_completions, Repository.visible_files.
    destruct (repo !! file) as [fc|].
    - rewrite Hfiles. simpl. by rewrite foldl_app_concat, Htables.
    - injection Hfiles as <-. cbn [mbind option_bind].
      by rewrite foldl_app_concat, Htables. }
  exists files. split_and!; [done | done | |].
  - intros Hself. rewrite Hall. unfold Repository.set_add.
    rewrite bool_decide_eq_false_2 by (by rewrite Hmem).
    rewrite fmap_app, concat_app. simpl. by rewrite app_nil_r.
  - intros Hself. rewrite Hall. unfold Repository.set_add.
    rewrite bool_decide_eq_true_2 by (by rewrite Hmem).
    apply Hmem, list_elem_of_split in Hself as (before & after & ->).
    exists before, after. split; [done|].
    rewrite fmap_app, concat_app. simpl. done.
Qed.

Lemma own_completions_last_witness :
  size Repository.Sample.repo < 5 ∧
  ∃ included,
    Repository.get_all_completions Repository.Sample.repo 5
      Repository.Sample.uriD
    = Some (included
            ++ [Repository.EnumCompletion "E" Repository.Sample.uriD]).
Proof.
  assert (size Repository.Sample.repo < 5) as Hsize by (vm_compute; lia).
  split; [exact Hsize|].
  destruct (own_completions_last Repository.Sample.repo 5
              Repository.Sample.uriD Hsize)
    as (files & _ & Hmem & Hlast & _).
  eexists. apply Hlast. rewrite <- Hmem. intros Hin.
  destruct (get_all_completions_visible_files Repository.Sample.repo 5
              Repository.Sample.uriD Hsize) as (files' & Hvis & Hreach).
  vm_compute in Hvis. injection Hvis as <-.
  apply Hmem, Hreach in Hin.
  repeat (apply elem_of_cons in Hin as [Hin|Hin]; [discriminate Hin|]).
  by apply elem_of_nil in Hin.
Defined.

(** ** Indexing of includes, when it returns *)

Section indexing.

Import Repository.

Variable fsPath : string → string.
Variable parse_file : string → FileCompletions → bool → FileCompletions.

Abbreviation parsed := (Repository.parsed fsPath parse_file).
Abbreviation index := (read_unscanned_imports fsPath parse_file).

Abbreviation indexed := (Repository.indexed fsPath parse_file).

Lemma indexed_nil repo : indexed repo [] repo.
Proof. split; [done | set_solver | by left]. Qed.

Lemma indexed_skip repo i fc incs repo' :
  repo !! uri i = Some fc → indexed repo incs repo' →
  indexed repo (i :: incs) repo'.
Proof.
  intros Hi [Hk Hr Hn]. split; [done | | done].
  intros j [->|Hj]%elem_of_cons; [|auto].
  exists fc. by eapply lookup_weaken.
Qed.

Lemma indexed_scan repo i incs repo1 repo' :
  repo !! uri i = None →
  indexed repo (includes (parsed i)) repo1 →
  indexed (<[uri i := parsed i]> repo1) incs repo' →
  indexed repo (i :: incs) repo'.
Proof.
  intros Hi [Hk1 Hr1 Hn1] [Hk2 Hr2 Hn2].
  assert (repo ⊆ <[uri i := parsed i]> repo1) as Hk
    by (by apply insert_subseteq_r).
  split.
  - by trans (<[uri i := parsed i]> repo1).
  - intros j [->|Hj]%elem_of_cons; [|auto].
    exists (parsed i). eapply lookup_weaken; [|done]. apply lookup_insert_eq.
  - intros u fc Hu. destruct (Hn2 u fc Hu) as [Hold|(Hnone & Hnew)].
    + destruct (decide (u = uri i)) as [->|Hne].
      * rewrite lookup_insert_eq in Hold. injection Hold as <-.
        right. split; [done|]. exists i. split_and!; [done | done |].
        intros j Hj. destruct (Hr1 j Hj) as [fcj Hfcj].
        destruct (decide (uri j = uri i)) as [Heq|Hnej].
        -- exists (parsed i). eapply lookup_weaken; [|done].
           rewrite Heq. apply lookup_insert_eq.
        -- exists fcj. eapply lookup_weaken; [|done].
           by rewrite lookup_insert_ne.
      * rewrite lookup_insert_ne in Hold by done.
        destruct (Hn1 u fc Hold) as [?|(Hnone & k & Hk' & Hfc & Hincs)];
          [by left|].
        right. split; [done|]. exists k. split_and!; [done | done |].
        intros j Hj. destruct (Hincs j Hj) as [fcj Hfcj].
        destruct (decide (uri j = uri i)) as [Heq|Hnej].
        -- exists (parsed i). eapply lookup_weaken; [|done].
           rewrite Heq. apply lookup_insert_eq.
        -- exists fcj. eapply lookup_weaken; [|done].
           by rewrite lookup_insert_ne.
    + right. split; [|done].
      destruct (repo !! u) as [fc'|] eqn:Hrepo; [|done].
      pose proof (lookup_weaken _ _ _ _ Hrepo Hk). congruence.
Qed.

Lemma read_unscanned_imports_indexed_incs fuel : ∀ repo incs repo',
  for_each (scan_import fsPath parse_file (index fuel)) incs repo = Some repo' →
  (∀ repo completions repo',
     index fuel repo completions = Some repo' →
     indexed repo (includes completions) repo') →
  indexed repo incs repo'.
Proof.
  intros repo incs. revert repo.
  induction incs as [|i incs IHincs]; intros repo repo' Hrun IH.
  - injection Hrun as <-. apply indexed_nil.
  - apply for_each_Some_cons in Hrun as (repo1 & Hscan & Hrest).
    unfold scan_import in Hscan.
    destruct (repo !! uri i) as [fc|] eqn:Hi.
    + injection Hscan as <-. eapply indexed_skip; [done|]. by apply IHincs.
    + change (parse_file _ _ _) with (parsed i) in Hscan.
      destruct (index fuel repo (parsed i)) as [repo2|] eqn:Hrec; [|done].
      injection Hscan as <-.
      eapply indexed_scan; [done | by apply IH | by apply IHincs].
Qed.

Lemma read_unscanned_imports_indexed fuel : ∀ repo completions repo',
  index fuel repo completions = Some repo' →
  indexed repo (includes completions) repo'.
Proof.
  induction fuel as [|fuel IH]; [done|].
  intros repo completions repo' Hrun. simpl in Hrun.
  by eapply read_unscanned_imports_indexed_incs.
Qed.

End indexing.

(** X5. When read_unscanned_imports returns, the tables that were in
    the map are still there unchanged, every include of the table it
    was given has a table, and every table it added is the parse of an
    include directive whose own includes all have a table. *)
Theorem read_unscanned_imports_returns_indexed
    (fsPath : string → string)
    (parse_file : string → Repository.FileCompletions → bool →
                  Repository.FileCompletions)
    (fuel : nat) (repo repo' : Repository.Repo)
    (completions : Repository.FileCompletions) :
  Repository.read_unscanned_imports fsPath parse_file fuel repo completions
  = Some repo' →
  repo ⊆ repo' ∧
  (∀ i, i ∈ Repository.includes completions →
        is_Some (repo' !! Repository.uri i)) ∧
  (∀ u fc, repo' !! u = Some fc →
     repo !! u = Some fc ∨
     (repo !! u = None ∧
      ∃ i, Repository.uri i = u ∧
           fc = Repository.parsed fsPath parse_file i ∧
           ∀ j, j ∈ Repository.includes fc →
                is_Some (repo' !! Repository.uri j))).
Proof.
  intros Hrun.
  by destruct (read_unscanned_imports_indexed _ _ _ _ _ _ Hrun).
Qed.

Lemma read_unscanned_imports_returns_indexed_witness :
  let main := Repository.Sample.table Repository.Sample.uriMain []
                [Repository.Sample.uriLib] in
  ∃ repo',
    Repository.read_unscanned_imports Repository.Sample.fsPath
      Repository.Sample.parse_tree 3 ∅ main = Some repo' ∧
    is_Some (repo' !! Repository.Sample.uriLib) ∧
    is_Some (repo' !! Repository.Sample.uriCore).
Proof.
  intros main.
  destruct (Repository.read_unscanned_imports Repository.Sample.fsPath
              Repository.Sample.parse_tree 3 ∅ main) as [repo'|] eqn:Hrun;
    [|by vm_compute in Hrun].
  exists repo'. split; [done|].
  destruct (read_unscanned_imports_returns_indexed _ _ _ _ _ _ Hrun)
    as (_ & Hroots & Hnew).
  assert (is_Some (repo' !! Repository.Sample.uriLib)) as [fc Hlib].
  { apply (Hroots {| Repository.uri := Repository.Sample.uriLib;
                     Repository.IsBuiltIn := false |}).
    vm_compute. set_solver. }
  split; [by eexists|].
  destruct (Hnew _ _ Hlib) as [Hold|(_ & i & Hi & -> & Hincs)]; [done|].
  destruct i as [u b]. simpl in Hi. subst u.
  apply (Hincs {| Repository.uri := Repository.Sample.uriCore;
                  Repository.IsBuiltIn := b |}).
  vm_compute. set_solver.
Defined.

Section indexing_returns.

Import Repository.

Variable fsPath : string → string.
Variable parse_file : string → FileCompletions → bool → FileCompletions.
Variable rank : string → nat.

Abbreviation parsed' := (Repository.parsed fsPath parse_file).

(** The includes of a parsed file are of a smaller rank than the file. *)
Hypothesis rank_decreases :
  ∀ i j, j ∈ includes (parsed' i) → rank (uri j) < rank (uri i).

Lemma read_unscanned_imports_ranked fuel : ∀ repo completions,
  (∀ i, i ∈ includes completions → S (rank (uri i)) < fuel) → 0 < fuel →
  is_Some (read_unscanned_imports fsPath parse_file fuel repo completions).
Proof.
  induction fuel as [|fuel IH]; [lia|].
  intros repo completions Hincs _. simpl.
  generalize dependent (includes completions). clear completions.
  intros incs. revert repo.
  induction incs as [|i incs IHincs]; intros repo Hincs; [by eexists|].
  rewrite for_each_cons. unfold scan_import at 2.
  destruct (repo !! uri i) as [fc|] eqn:Hi; simpl.
  - apply IHincs. intros j Hj. apply Hincs. set_solver.
  - change (parse_file _ _ _) with (parsed' i).
    assert (S (rank (uri i)) < S fuel) as Hi' by (apply Hincs; set_solver).
    destruct (IH repo (parsed' i)) as [repo1 ->].
    + intros j Hj. pose proof (rank_decreases i j Hj). lia.
    + lia.
    + simpl. apply IHincs. intros j Hj. apply Hincs. set_solver.
Qed.

End indexing_returns.

(** X6. On a disk whose includes go down a rank, which excludes any
    cycle, read_unscanned_imports returns: a depth of recursion that
    exceeds by two the rank of the includes it is given is enough. *)
Theorem read_unscanned_imports_acyclic
    (fsPath : string → string)
    (parse_file : string → Repository.FileCompletions → bool →
                  Repository.FileCompletions)
    (rank : string → nat) (fuel : nat) (repo : Repository.Repo)
    (completions : Repository.FileCompletions) :
  (∀ i j, j ∈ Repository.includes (Repository.parsed fsPath parse_file i) →
          rank (Repository.uri j) < rank (Repository.uri i)) →
  (∀ i, i ∈ Repository.includes completions →
        S (rank (Repository.uri i)) < fuel) →
  0 < fuel →
  is_Some (Repository.read_unscanned_imports fsPath parse_file fuel repo
             completions).
Proof. intros. by eapply read_unscanned_imports_ranked. Qed.

Lemma read_unscanned_imports_acyclic_witness :
  let main := Repository.Sample.table Repository.Sample.uriMain []
                [Repository.Sample.uriLib] in
  is_Some (Repository.read_unscanned_imports Repository.Sample.fsPath
             Repository.Sample.parse_tree 3 ∅ main).
Proof.
  intros main.
  apply (read_unscanned_imports_acyclic Repository.Sample.fsPath
           Repository.Sample.parse_tree Repository.Sample.depth).
  - intros [u b] j. unfold Repository.parsed, Repository.Sample.parse_tree.
    simpl. case_bool_decide as Hlib.
    + intros ->%list_elem_of_singleton. simpl.
      unfold Repository.Sample.depth at 2.
      rewrite bool_decide_eq_true_2 by done. vm_compute. lia.
    + case_bool_decide; simpl; intros Hj; by apply elem_of_nil in Hj.
  - intros i ->%list_elem_of_singleton. vm_compute. lia.
  - lia.
Defined.

(** * Further properties of the completion provider *)

Section provider_edges.

Import Items.

Variable ItemsRepository : Type.
Variable getAllItems : ItemsRepository → string → list SPItem.
Variable lineAt : TextDocument → nat → option (list ascii).
Variable isMethodCall : list ascii → Position → bool.
Variable getTypeOfVariable :
  list ascii → Position → list SPItem → option SPItem → option SPItem →
  option string * list string.
Variable getAllInheritances : SPItem → list SPItem → list SPItem.
Variable toCompletionItem : SPItem → option SPItem → option CompletionItem.

Abbreviation provider' :=
  (getCompletionListFromPosition ItemsRepository getAllItems lineAt
     isMethodCall getTypeOfVariable getAllInheritances toCompletionItem).

Variable itemsRepo : ItemsRepository.
Variable document : TextDocument.
Variable position : Position.

Abbreviation allItems' := (getAllItems itemsRepo (doc_uri document)).
Abbreviation lastFunc' := (getLastFunc position document allItems').
Abbreviation lastType' :=
  (getLastEnumStructNameOrMethodMap position (doc_fsPath document) allItems').

(** X7. At a method call whose receiver resolves to an enum struct, the
    chain of inheritance is not consulted: the completions are the
    entries, in the order of the items, of the methods and properties
    whose parent is that enum struct and whose static marker agrees with
    the call being made on the name of a methodmap. *)
Theorem getCompletionListFromPosition_struct_receiver
    (text : list ascii) (variableType : option string) (words : list string)
    (receiverType : SPItem) :
  lineAt document (line position) = Some text →
  isMethodCall text position = true →
  getTypeOfVariable text position allItems' lastFunc' lastType'
  = (variableType, words) →
  find_type allItems' variableType = Some receiverType →
  kind receiverType = KStruct →
  ∃ keep : SPItem → bool,
    provider' itemsRepo document position
    = Return (omap (λ item, toCompletionItem item lastFunc')
                (List.filter keep allItems')) ∧
    ∀ item, keep item = true ↔
      (kind item = KMethod ∨ kind item = KProperty) ∧
      parent item = Some (ref receiverType) ∧
      ref item ≠ ref receiverType ∧
      (static_test (detail item) = true ↔ static_call allItems' words).
Proof.
  intros Hline Hcall Htype Hfind Hstruct.
  exists (is_method_item [receiverType] (names_methodmap allItems' words)).
  split.
  - unfold getCompletionListFromPosition.
    rewrite Hline, Hcall. simpl. rewrite Htype, Hfind.
    rewrite bool_decide_eq_false_2 by (rewrite Hstruct; done).
    rewrite getMethodItems_eq. do 2 f_equal. apply filter_bool.
  - intros item. rewrite is_method_item_spec. unfold completes_on.
    split.
    + intros (Hk & (t & ->%list_elem_of_singleton & Hp) & Hn & Hs).
      split_and!; try done. intros Heq. apply Hn. exists receiverType.
      split; [set_solver | done].
    + intros (Hk & Hp & Hn & Hs). split_and!; try done.
      * exists receiverType. split; [set_solver | done].
      * intros (t & ->%list_elem_of_singleton & Heq). done.
Qed.

End provider_edges.

Lemma getCompletionListFromPosition_struct_receiver_witness :
  let d := Items.Sample.document "vec." in
  let p := Items.Sample.at_ 0 4 in
  Items.Sample.isMethodCall (getText d) p = true ∧
  Items.find_type Items.Sample.geometry (Some "Vec") = Some Items.Sample.Vec ∧
  ∃ keep : Items.SPItem → bool,
    Items.Sample.complete Items.Sample.geometry d p
    = Return (omap (λ item, Items.Sample.toCompletionItem item None)
                (List.filter keep Items.Sample.geometry)) ∧
    keep Items.Sample.Vec_Length = true ∧ keep Items.Sample.Foo_Get = false.
Proof.
  intros d p.
  assert (Items.Sample.lineAt d (line p) = Some (getText d)) as H1
    by reflexivity.
  assert (Items.Sample.isMethodCall (getText d) p = true) as H2
    by reflexivity.
  assert (Items.find_type Items.Sample.geometry (Some "Vec")
          = Some Items.Sample.Vec) as H3 by reflexivity.
  split; [exact H2|]. split; [exact H3|].
  destruct (getCompletionListFromPosition_struct_receiver (list Items.SPItem)
              Items.Sample.getAllItems Items.Sample.lineAt
              Items.Sample.isMethodCall Items.Sample.getTypeOfVariable
              Items.Sample.getAllInheritances Items.Sample.toCompletionItem
              Items.Sample.geometry d p (getText d) (Some "Vec") ["vec"]
              Items.Sample.Vec H1 H2 eq_refl H3 eq_refl)
    as (keep & Hres & Hkeep).
  exists keep. split; [exact Hres|]. split.
  - apply Hkeep. split_and!; [by left | done | done |].
    split; [by intros [=] |].
    intros (w & e & [= <-] & He & Hn & Hk). exfalso.
    unfold Items.Sample.getAllItems, Items.Sample.geometry,
      Items.Sample.program in He. simpl in He.
    repeat (apply elem_of_cons in He as [->|He];
            [by (discriminate Hn || discriminate Hk)|]).
    by apply elem_of_nil in He.
  - apply not_true_is_false. intros (_ & Hp & _)%Hkeep. discriminate Hp.
Defined.

Example complete_struct_receiver :
  Items.Sample.complete Items.Sample.geometry (Items.Sample.document "vec.")
    (Items.Sample.at_ 0 4)
  = Return [plain_item "Length" KMethod; plain_item "x" KProperty].
Proof. vm_compute. reflexivity. Qed.

(** * Properties of the patterns *)

Section pattern_facts.

Import Items DefinitionProvider.

Lemma starts_with_spec (w s : list ascii) :
  starts_with w s = true ↔ ∃ r, s = w ++ r.
Proof.
  revert s. induction w as [|a w IH]; intros s; simpl.
  - split; [by exists s | done].
  - destruct s as [|c s]; [split; [done | by intros (? & ?)]|].
    rewrite andb_true_iff, bool_decide_eq_true, IH. split.
    + intros [-> [r ->]]. by exists r.
    + intros (r & [= -> ->]). split; [done | by exists r].
Qed.

Lemma boundary_before_cons p x pre :
  boundary_before p (x :: pre) ↔ boundary_before (is_word x) pre.
Proof.
  unfold boundary_before. destruct pre as [|y pre]; [reflexivity|].
  rewrite last_cons_cons.
  destruct (last (y :: pre)) eqn:Hlast; [reflexivity|].
  by apply last_None in Hlast.
Qed.

Lemma static_tail_spec (rest : list ascii) :
  static_tail rest = true ↔
  ∃ c, head rest = Some c ∧ is_word c = false ∧ "("%char ∈ rest.
Proof.
  unfold static_tail. destruct rest as [|c rest].
  - split; [done | by intros (? & ? & _)].
  - rewrite andb_true_iff, negb_true_iff, existsb_exists. split.
    + intros [Hc (x & Hx%list_elem_of_In & ->%bool_decide_eq_true)]. eauto.
    + intros (c' & [= <-] & Hc & Hin). split; [done|].
      exists "("%char. split; [by apply list_elem_of_In | by apply bool_decide_eq_true].
Qed.

(** The search for the static marker, in words: the word static, a
    boundary on each side, and an opening parenthesis further on. *)
Lemma static_from_spec (s : list ascii) : ∀ p,
  static_from p s = true ↔
  ∃ pre rest c,
    s = pre ++ static_word ++ rest ∧ boundary_before p pre ∧
    head rest = Some c ∧ is_word c = false ∧ "("%char ∈ rest.
Proof.
  induction s as [|c0 s IH]; intros p.
  - split; [done|]. intros (pre & rest & c & H & _). by destruct pre.
  - cbn [static_from]. rewrite orb_true_iff, !andb_true_iff, negb_true_iff.
    rewrite starts_with_spec, IH. split.
    + intros [[[-> [r Hr]] Htail]|(pre & rest & c & -> & Hb & Hrest)].
      * rewrite Hr in Htail |- *.
        change (drop 6 (static_word ++ r)) with r in Htail.
        apply static_tail_spec in Htail as (c & ? & ? & ?).
        exists [], r, c. by split_and!.
      * exists (c0 :: pre), rest, c. split; [done|].
        split; [by apply (boundary_before_cons p c0 pre) | done].
    + intros (pre & rest & c & Hs & Hb & Hh & Hc & Hin).
      destruct pre as [|x pre].
      * left. simpl in Hs. split_and!.
        -- done.
        -- by exists rest.
        -- rewrite Hs. change (drop 6 (static_word ++ rest)) with rest.
           apply static_tail_spec. eauto.
      * right. injection Hs as -> ->. exists pre, rest, c.
        split; [done|]. split; [by apply (boundary_before_cons p x pre) | done].
Qed.

Lemma boundary_after_spec (rest : list ascii) :
  boundary_after rest = true ↔ ∀ c, head rest = Some c → is_word c = false.
Proof.
  unfold boundary_after. destruct rest as [|c rest]; simpl.
  - split; [by intros _ ? | done].
  - rewrite negb_true_iff. split; [by intros ? ? [= <-] | auto].
Qed.

(** The search for a word between two boundaries, in words. *)
Lemma word_from_spec (w s : list ascii) : ∀ p,
  w ≠ [] →
  word_from w p s = true ↔
  ∃ pre rest,
    s = pre ++ w ++ rest ∧ boundary_before p pre ∧
    ∀ c, head rest = Some c → is_word c = false.
Proof.
  intros p Hw. revert p. induction s as [|c0 s IH]; intros p.
  - split; [done|]. intros (pre & rest & H & _).
    destruct pre; [by destruct w | done].
  - cbn [word_from]. rewrite orb_true_iff, !andb_true_iff, negb_true_iff.
    rewrite starts_with_spec, IH, boundary_after_spec. split.
    + intros [[[-> [r Hr]] Hafter]|(pre & rest & -> & Hb & Hrest)].
      * rewrite Hr in Hafter |- *. rewrite drop_app_length in Hafter.
        exists [], r. by split_and!.
      * exists (c0 :: pre), rest. split; [done|].
        split; [by apply (boundary_before_cons p c0 pre) | done].
    + intros (pre & rest & Hs & Hb & Hafter).
      destruct pre as [|x pre].
      * left. simpl in Hs. split_and!.
        -- done.
        -- by exists rest.
        -- by rewrite Hs, drop_app_length.
      * right. injection Hs as -> ->. exists pre, rest.
        split; [done|]. split; [by apply (boundary_before_cons p x pre) | done].
Qed.

End pattern_facts.

(** X9. An item counts as static exactly when its detail holds the
    word static, not glued to a word character on either side, and an
    opening parenthesis somewhere behind it; an item without detail is
    not static. *)
Theorem static_test_marker (detail : option (list ascii)) :
  Items.static_test detail = true ↔
  ∃ d pre rest c,
    detail = Some d ∧ d = pre ++ Items.static_word ++ rest ∧
    (∀ x, last pre = Some x → is_word x = false) ∧
    head rest = Some c ∧ is_word c = false ∧ "("%char ∈ rest.
Proof.
  destruct detail as [d|]; simpl.
  - rewrite static_from_spec. split.
    + intros (pre & rest & c & -> & Hb & Hrest).
      exists (pre ++ Items.static_word ++ rest), pre, rest, c.
      split_and!; try done; try tauto.
      intros x Hx. unfold DefinitionProvider.boundary_before in Hb.
      by rewrite Hx in Hb.
    + intros (d' & pre & rest & c & [= <-] & -> & Hb & Hrest).
      exists pre, rest, c. split; [done|]. split; [|done].
      unfold DefinitionProvider.boundary_before.
      destruct (last pre); [auto | done].
  - split; [done | by intros (? & ? & ? & ? & ? & _)].
Qed.

(** X10. A line is a control statement exactly when it holds one of
    the words if, for, while, case, switch and return, not glued to a
    word character on either side. *)
Theorem isControlStatement_words (line : list ascii) :
  DefinitionProvider.isControlStatement line = true ↔
  ∃ w pre rest,
    w ∈ DefinitionProvider.toCheck ∧ line = pre ++ w ++ rest ∧
    (∀ x, last pre = Some x → is_word x = false) ∧
    (∀ c, head rest = Some c → is_word c = false).
Proof.
  unfold DefinitionProvider.isControlStatement. rewrite existsb_exists.
  split.
  - intros (w & Hw%list_elem_of_In & Hfrom).
    apply word_from_spec in Hfrom as (pre & rest & -> & Hb & Hafter).
    + exists w, pre, rest. split_and!; try done.
      intros x Hx. unfold DefinitionProvider.boundary_before in Hb.
      by rewrite Hx in Hb.
    + intros ->. unfold DefinitionProvider.toCheck in Hw.
      repeat (apply elem_of_cons in Hw as [Hw|Hw]; [discriminate Hw|]).
      by apply elem_of_nil in Hw.
  - intros (w & pre & rest & Hw & -> & Hb & Hafter).
    exists w. split; [by apply list_elem_of_In|].
    apply word_from_spec.
    + intros ->. unfold DefinitionProvider.toCheck in Hw.
      repeat (apply elem_of_cons in Hw as [Hw|Hw]; [discriminate Hw|]).
      by apply elem_of_nil in Hw.
    + exists pre, rest. split; [done|]. split; [|done].
      unfold DefinitionProvider.boundary_before.
      destruct (last pre); [auto | done].
Qed.

Example isControlStatement_examples :
  DefinitionProvider.isControlStatement
    (String.list_ascii_of_string "  if (x) return;") = true ∧
  DefinitionProvider.isControlStatement
    (String.list_ascii_of_string "notify(iffy, format);") = false ∧
  DefinitionProvider.isControlStatement
    (String.list_ascii_of_string "x = switch_case;") = false.
Proof. by vm_compute. Qed.

(** * Properties of the string test *)

Section string_facts.

Import Items DefinitionProvider.

(** The loop reads the characters before the end column, in order. *)
Lemma string_loop_take (rest : list ascii) : ∀ i e st,
  string_loop rest i e st = foldl string_step st (take (e - i) rest).
Proof.
  induction rest as [|c rest IH]; intros i e st.
  - by rewrite take_nil.
  - simpl. destruct (i <? e) eqn:Hi.
    + apply Nat.ltb_lt in Hi. rewrite IH.
      replace (e - i) with (S (e - S i)) by lia. done.
    + apply Nat.ltb_ge in Hi. by replace (e - i) with 0 by lia.
Qed.

Lemma isInAString_take (range : Range) (line : list ascii) :
  isInAString range line
  = isAString (foldl string_step string_start
                 (take (character (end_ range)) line)).
Proof.
  unfold isInAString. by rewrite string_loop_take, Nat.sub_0_r.
Qed.

Lemma string_step_coherent st c : coherent st → coherent (string_step st c).
Proof.
  unfold coherent, string_step, on_quote. intros H.
  repeat case_bool_decide; simpl; try done;
    destruct (negb (isEscaped st)); simpl; try done;
    repeat case_bool_decide; simpl; try done;
    exfalso; naive_solver.
Qed.

Lemma string_run_coherent (l : list ascii) : ∀ st,
  coherent st → coherent (foldl string_step st l).
Proof.
  induction l as [|c l IH]; intros st H; [done|].
  simpl. by apply IH, string_step_coherent.
Qed.

(** After a character, the escape flag says whether it is a backslash. *)
Lemma string_step_escaped st c :
  isEscaped (string_step st c) = bool_decide (c = backslash).
Proof.
  unfold string_step, on_quote.
  destruct (bool_decide (c = "'"%char)) eqn:H1;
    destruct (bool_decide (c = Define.dquote)) eqn:H2;
    destruct (negb (isEscaped st)); simpl;
    try apply bool_decide_eq_true in H1; try apply bool_decide_eq_true in H2;
    subst; repeat case_bool_decide; simpl; done.
Qed.

Lemma string_run_escaped (l : list ascii) st :
  isEscaped (foldl string_step st l)
  = match last l with
    | Some c => bool_decide (c = backslash)
    | None => isEscaped st
    end.
Proof.
  destruct l as [|c l] using rev_ind; [done|].
  by rewrite foldl_snoc, last_snoc, string_step_escaped.
Qed.

(** A character that is not the quote that would open or close leaves
    the flag and the delimiter as they are. *)
Lemma string_step_other st c :
  (∀ q, is_quote q → c = q → delimiter st ≠ None ∧ delimiter st ≠ Some q) →
  isAString (string_step st c) = isAString st ∧
  delimiter (string_step st c) = delimiter st.
Proof.
  intros Hc. unfold string_step, on_quote.
  destruct (bool_decide (c = "'"%char)) eqn:H1; simpl.
  - apply bool_decide_eq_true in H1. subst c.
    destruct (Hc "'"%char) as [? ?]; [by left | done |].
    destruct (negb (isEscaped st)); simpl;
      repeat case_bool_decide; simpl; try done; congruence.
  - destruct (bool_decide (c = Define.dquote)) eqn:H2; simpl.
    + apply bool_decide_eq_true in H2. subst c.
      destruct (Hc Define.dquote) as [? ?]; [by right | done |].
      destruct (negb (isEscaped st)); simpl;
        repeat case_bool_decide; simpl; try done; congruence.
    + by destruct (bool_decide (c = backslash)).
Qed.

(** Text without quote, outside a string. *)
Lemma string_run_outside (l : list ascii) : ∀ st,
  delimiter st = None → isAString st = false →
  (∀ c, c ∈ l → ¬ is_quote c) →
  isAString (foldl string_step st l) = false ∧
  delimiter (foldl string_step st l) = None.
Proof.
  induction l as [|c l IH]; intros st Hd Ha Hl; [done|]. simpl.
  destruct (string_step_other st c) as [Ha' Hd'].
  { intros q Hq ->. exfalso. apply (Hl q); [set_solver | done]. }
  apply IH; [congruence | congruence |].
  intros x Hx. apply Hl. set_solver.
Qed.

(** Text without the delimiter, inside a string. *)
Lemma string_run_inside (q : ascii) (l : list ascii) : ∀ st,
  delimiter st = Some q → isAString st = true → q ∉ l →
  isAString (foldl string_step st l) = true ∧
  delimiter (foldl string_step st l) = Some q.
Proof.
  induction l as [|c l IH]; intros st Hd Ha Hl; [done|]. simpl.
  destruct (string_step_other st c) as [Ha' Hd'].
  { intros q' Hq' ->. rewrite Hd. split; [done|]. intros [= ->]. set_solver. }
  apply IH; [congruence | congruence | set_solver].
Qed.

(** A quote that is not escaped opens a string when none is open, and
    closes the string it delimits. *)
Lemma string_step_open st q :
  is_quote q → isEscaped st = false → delimiter st = None →
  isAString (string_step st q) = true ∧ delimiter (string_step st q) = Some q.
Proof.
  intros Hq He Hd. unfold string_step, on_quote. rewrite He, Hd. simpl.
  destruct Hq as [-> | ->]; simpl; done.
Qed.

Lemma string_step_close st q :
  is_quote q → isEscaped st = false → delimiter st = Some q →
  isAString (string_step st q) = false ∧ delimiter (string_step st q) = None.
Proof.
  intros Hq He Hd. unfold string_step, on_quote. rewrite He, Hd. simpl.
  destruct Hq as [-> | ->]; simpl; by rewrite ?bool_decide_eq_true_2.
Qed.

(** A quote behind a backslash changes nothing. *)
Lemma string_step_escaped_quote st q :
  is_quote q →
  isAString (string_step (string_step st backslash) q) = isAString st ∧
  delimiter (string_step (string_step st backslash) q) = delimiter st.
Proof.
  intros Hq.
  assert (string_step st backslash
          = {| isEscaped := true; isAString := isAString st;
               delimiter := delimiter st |}) as -> by done.
  destruct Hq as [-> | ->]; done.
Qed.

End string_facts.

Section string_results.

Import Items DefinitionProvider.

Lemma quote_not_backslash q : is_quote q → q ≠ backslash.
Proof. by intros [-> | ->]. Qed.

(** The state behind text without quote that does not end with a
    backslash: nothing is open and nothing is escaped. *)
Lemma string_run_plain (pre : list ascii) :
  (∀ c, c ∈ pre → ¬ is_quote c) → last pre ≠ Some backslash →
  let st := foldl string_step string_start pre in
  isAString st = false ∧ delimiter st = None ∧ isEscaped st = false.
Proof.
  intros Hpre Hlast st.
  destruct (string_run_outside pre string_start) as [Ha Hd]; try done.
  split; [done|]. split; [done|].
  unfold st. rewrite string_run_escaped.
  destruct (last pre) as [c|]; [|done].
  apply bool_decide_eq_false. congruence.
Qed.

(** The state behind an opening quote and text without that quote. *)
Lemma string_run_opened (pre body : list ascii) (q : ascii) :
  is_quote q → (∀ c, c ∈ pre → ¬ is_quote c) → last pre ≠ Some backslash →
  q ∉ body →
  let st := foldl string_step string_start (pre ++ q :: body) in
  isAString st = true ∧ delimiter st = Some q ∧
  isEscaped st = bool_decide (last body = Some backslash).
Proof.
  intros Hq Hpre Hlast Hbody st. unfold st.
  rewrite foldl_app. simpl.
  destruct (string_run_plain pre Hpre Hlast) as (Ha & Hd & He).
  destruct (string_step_open _ q Hq He Hd) as [Ha1 Hd1].
  destruct (string_run_inside q body _ Hd1 Ha1 Hbody) as [Ha2 Hd2].
  split; [done|]. split; [done|].
  rewrite string_run_escaped. destruct (last body) as [c|] eqn:Hc.
  - apply bool_decide_ext. split; congruence.
  - rewrite string_step_escaped.
    rewrite !bool_decide_eq_false_2; [done | done |].
    by apply quote_not_backslash.
Qed.

End string_results.

(** X11. isInAString reads the line before the end column of the
    range only, and answers no when that part of the line, which may be
    empty, holds no quote. *)
Theorem isInAString_before_column (range : Items.Range)
    (line line' : list ascii) :
  (take (character (Items.end_ range)) line
   = take (character (Items.end_ range)) line' →
   DefinitionProvider.isInAString range line
   = DefinitionProvider.isInAString range line') ∧
  ((∀ c, c ∈ take (character (Items.end_ range)) line →
         ¬ DefinitionProvider.is_quote c) →
   DefinitionProvider.isInAString range line = false).
Proof.
  split.
  - intros Htake. by rewrite !isInAString_take, Htake.
  - intros Hplain. rewrite isInAString_take.
    by destruct (string_run_outside _ DefinitionProvider.string_start
                   eq_refl eq_refl Hplain).
Qed.

Lemma isInAString_before_column_witness :
  let range := Items.Sample.lines_ 0 0 in
  let line := String.list_ascii_of_string "x = 'a';" in
  DefinitionProvider.isInAString range line = false.
Proof.
  intros range line.
  destruct (isInAString_before_column range line line) as [_ Hplain].
  apply Hplain. intros c Hc. vm_compute in Hc.
  apply elem_of_cons in Hc as [->|Hc]; [by intros [?|?] | by apply elem_of_nil in Hc].
Defined.

(** X12. Behind text that holds no quote and does not end with a
    backslash, a position between an opening quote and the next quote of
    the same kind is in a string, whatever the text in between holds
    (the other quote, backslashes); behind that closing quote, when no
    backslash stands before it, and text without quote, the position is
    not in a string. *)
Theorem isInAString_literal (range : Items.Range)
    (pre body rest : list ascii) (q : ascii) :
  DefinitionProvider.is_quote q →
  (∀ c, c ∈ pre → ¬ DefinitionProvider.is_quote c) →
  last pre ≠ Some DefinitionProvider.backslash →
  q ∉ body →
  (length pre < character (Items.end_ range) ≤ length pre + 1 + length body →
   DefinitionProvider.isInAString range (pre ++ q :: body ++ rest) = true) ∧
  (∀ after,
     last body ≠ Some DefinitionProvider.backslash →
     (∀ c, c ∈ after → ¬ DefinitionProvider.is_quote c) →
     character (Items.end_ range)
     = length pre + length body + 2 + length after →
     DefinitionProvider.isInAString range
       (pre ++ q :: body ++ q :: after ++ rest) = false).
Proof.
  intros Hq Hpre Hlast Hbody. split.
  - intros [Hlo Hhi]. rewrite isInAString_take.
    set (k := character (Items.end_ range) - length pre - 1).
    assert (take (character (Items.end_ range)) (pre ++ q :: body ++ rest)
            = pre ++ q :: take k body) as ->.
    { rewrite take_app_ge by lia.
      replace (character (Items.end_ range) - length pre) with (S k)
        by (unfold k; lia).
      simpl. rewrite take_app_le by (unfold k; lia). done. }
    destruct (string_run_opened pre (take k body) q) as [Ha _]; try done.
    intros Hin. apply Hbody. by apply (subseteq_take k body).
  - intros after Hbl Hafter He. rewrite isInAString_take.
    assert (take (character (Items.end_ range))
              (pre ++ q :: body ++ q :: after ++ rest)
            = (pre ++ q :: body) ++ q :: after) as ->.
    { rewrite He.
      replace (pre ++ q :: body ++ q :: after ++ rest)
        with ((pre ++ q :: body ++ q :: after) ++ rest)
        by (by rewrite <- !app_assoc; simpl; rewrite <- !app_assoc).
      rewrite take_app_length'; [by rewrite <- !app_assoc|].
      rewrite !length_app. simpl. rewrite length_app. simpl. lia. }
    rewrite foldl_app. simpl.
    destruct (string_run_opened pre body q) as (Ha & Hd & Hesc); try done.
    rewrite bool_decide_eq_false_2 in Hesc by done.
    destruct (string_step_close _ q Hq Hesc Hd) as [Ha1 Hd1].
    by destruct (string_run_outside after _ Hd1 Ha1 Hafter).
Qed.

Lemma isInAString_literal_witness :
  let line := String.list_ascii_of_string "x = 'a//b' + y" in
  DefinitionProvider.isInAString
    {| Items.start := Items.Sample.at_ 0 6;
       Items.end_ := Items.Sample.at_ 0 7 |} line = true ∧
  DefinitionProvider.isInAString
    {| Items.start := Items.Sample.at_ 0 12;
       Items.end_ := Items.Sample.at_ 0 13 |} line = false.
Proof.
  intros line.
  assert (∀ c : ascii, c ∈ String.list_ascii_of_string "x = " →
            ¬ DefinitionProvider.is_quote c) as Hpre.
  { intros c Hc. vm_compute in Hc.
    repeat (apply elem_of_cons in Hc as [->|Hc]; [by intros [?|?]|]).
    by apply elem_of_nil in Hc. }
  assert ("'"%char ∉ String.list_ascii_of_string "a//b") as Hbody.
  { intros Hc. vm_compute in Hc.
    repeat (apply elem_of_cons in Hc as [Hc|Hc]; [discriminate Hc|]).
    by apply elem_of_nil in Hc. }
  split.
  - apply (isInAString_literal _ (String.list_ascii_of_string "x = ")
             (String.list_ascii_of_string "a//b")
             (String.list_ascii_of_string "' + y") "'"%char);
      [by left | exact Hpre | done | exact Hbody | simpl; lia].
  - destruct (isInAString_literal
                {| Items.start := Items.Sample.at_ 0 12;
                   Items.end_ := Items.Sample.at_ 0 13 |}
                (String.list_ascii_of_string "x = ")
                (String.list_ascii_of_string "a//b")
                (String.list_ascii_of_string "y") "'"%char)
      as [_ Hclosed]; [by left | exact Hpre | done | exact Hbody |].
    apply (Hclosed (String.list_ascii_of_string " + ")); [done | | reflexivity].
    intros c Hc. vm_compute in Hc.
    repeat (apply elem_of_cons in Hc as [->|Hc]; [by intros [?|?]|]).
    by apply elem_of_nil in Hc.
Defined.

(** X13. A quote right behind a backslash neither opens nor closes a
    string, also when that backslash is itself behind a backslash: the
    answer behind the two characters is the answer before them. *)
Theorem isInAString_escaped_quote (range range' : Items.Range)
    (pre post : list ascii) (q : ascii) :
  DefinitionProvider.is_quote q →
  character (Items.end_ range) = length pre + 2 →
  character (Items.end_ range') = length pre →
  DefinitionProvider.isInAString range
    (pre ++ DefinitionProvider.backslash :: q :: post)
  = DefinitionProvider.isInAString range'
      (pre ++ DefinitionProvider.backslash :: q :: post).
Proof.
  intros Hq He He'. rewrite !isInAString_take, He, He'.
  rewrite take_app_length.
  replace (pre ++ DefinitionProvider.backslash :: q :: post)
    with ((pre ++ [DefinitionProvider.backslash; q]) ++ post)
    by (by rewrite <- app_assoc).
  rewrite take_app_length' by (rewrite length_app; simpl; lia).
  rewrite foldl_app. simpl.
  by destruct (string_step_escaped_quote
                 (foldl DefinitionProvider.string_step
                    DefinitionProvider.string_start pre) q Hq) as [-> _].
Qed.

Lemma isInAString_escaped_quote_witness :
  let line := [Define.dquote; "a"; DefinitionProvider.backslash;
               Define.dquote; "b"]%char in
  DefinitionProvider.isInAString
    {| Items.start := Items.Sample.at_ 0 0;
       Items.end_ := Items.Sample.at_ 0 4 |} line
  = DefinitionProvider.isInAString
      {| Items.start := Items.Sample.at_ 0 0;
         Items.end_ := Items.Sample.at_ 0 2 |} line.
Proof.
  intros line.
  apply (isInAString_escaped_quote _ _ [Define.dquote; "a"%char]
           ["b"%char] Define.dquote); [by right | reflexivity | reflexivity].
Defined.

(** * Further properties of the define extractor *)

Section comment_facts.

Import Items Define.

Lemma plain_text (v : list ascii) :
  plain v → forallb (text_char false false) v = true.
Proof.
  intros Hv. apply forallb_forall. intros c Hc%list_elem_of_In.
  destruct (Hv c Hc) as (H1 & H2 & H3). unfold text_char.
  by rewrite !bool_decide_eq_false_2.
Qed.

(** Two slashes outside quotes and comment: the loop breaks, and what
    follows them is the description. *)
Lemma scan_line_comment budget st :
  blockComment st = false → openDQuote st = false → openSQuote st = false →
  cur_line st !! i st = Some "/"%char →
  cur_line st !! S (i st) = Some "/"%char →
  scan (S budget) st
  = Exit {| cur_line := cur_line st; i := i st; cur_value := cur_value st;
            cur_description := slice_from (i st + 2) (cur_line st);
            openDQuote := false; openSQuote := false; blockComment := false;
            rest_lines := rest_lines st; cur_lineNb := cur_lineNb st |}.
Proof.
  destruct st as [l k v d oD oS bC rl ln]. simpl.
  intros -> -> -> Hc Hn. rewrite Hc, Hn. simpl.
  apply lookup_lt_Some in Hn. apply Nat.ltb_lt in Hn. rewrite Hn.
  repeat case_bool_decide; simpl; try done; congruence.
Qed.

(** A slash and an asterisk outside quotes and comment open a comment. *)
Lemma scan_open_comment budget st :
  blockComment st = false → openDQuote st = false → openSQuote st = false →
  cur_line st !! i st = Some "/"%char →
  cur_line st !! S (i st) = Some "*"%char →
  scan (S budget) st = scan budget (enter_comment st).
Proof.
  destruct st as [l k v d oD oS bC rl ln]. simpl.
  intros -> -> -> Hc Hn. rewrite Hc, Hn. simpl.
  apply lookup_lt_Some in Hn. apply Nat.ltb_lt in Hn. rewrite Hn.
  repeat case_bool_decide; simpl; try done; congruence.
Qed.

(** Inside a comment, on a line that closes it. *)
Lemma scan_close_comment budget st len1 len0 :
  blockComment st = true → i st < length (cur_line st) →
  end_comment_match (slice_from (i st) (cur_line st)) = Some (len1, len0) →
  scan (S budget) st = scan budget (leave_comment st len1 len0).
Proof.
  destruct st as [l k v d oD oS bC rl ln]. simpl.
  intros -> Hk Hmatch.
  destruct (lookup_lt_is_Some_2 l k Hk) as [c ->].
  by rewrite !andb_false_r, Hmatch.
Qed.

(** Text without slash closes no comment. *)
Lemma greedy_end_no_slash (s : list ascii) :
  "/"%char ∉ s → greedy_end s = None.
Proof.
  induction s as [|c s IH]; intros Hs; [done|]. cbn [greedy_end].
  destruct (is_line_terminator c); [done|].
  rewrite IH by set_solver.
  destruct (starts_with ["*"%char; "/"%char] (c :: s)) eqn:Hstart; [|done].
  apply starts_with_spec in Hstart as [r Hr]. simpl in Hr.
  injection Hr as -> ->. set_solver.
Qed.


(** The comment ends at the last asterisk and slash of the line: behind
    text without line terminator, and before text without slash. *)
Lemma greedy_end_close (c w : list ascii) :
  (∀ x, x ∈ c → is_line_terminator x = false) → "/"%char ∉ w →
  greedy_end (c ++ "*"%char :: "/"%char :: w) = Some (length c).
Proof.
  intros Hc Hw. induction c as [|x c IH].
  - cbn [app greedy_end].
    change (is_line_terminator "*"%char) with false.
    change (is_line_terminator "/"%char) with false. cbn iota.
    rewrite (greedy_end_no_slash w Hw). cbn [starts_with].
    rewrite (bool_decide_eq_false_2 ("*"%char = "/"%char)) by done.
    by rewrite !bool_decide_eq_true_2.
  - cbn [app greedy_end]. rewrite (Hc x) by set_solver. rewrite IH; [done|].
    intros y Hy. apply Hc. set_solver.
Qed.

Lemma end_comment_match_close (c w : list ascii) :
  (∀ x, x ∈ c → is_line_terminator x = false) → "/"%char ∉ w →
  end_comment_match (c ++ "*"%char :: "/"%char :: w)
  = Some (length c, length c + 2).
Proof.
  intros Hc Hw.
  assert (∀ s, greedy_end s = Some (length c) →
               end_comment_match s = Some (length c, length c + 2)) as H.
  { intros s Hs. destruct s as [|x s]; [done|].
    cbn [end_comment_match]. by rewrite Hs. }
  apply H. by apply greedy_end_close.
Qed.

Lemma plain_no_slash (w : list ascii) : plain w → "/"%char ∉ w.
Proof. intros Hw Hin. by destruct (Hw _ Hin) as (_ & _ & ?). Qed.

End comment_facts.

Section comment_scans.

Import Items Define.

Lemma lookup_pair (pre : list ascii) (a b : ascii) (rest : list ascii) n :
  n = length pre →
  (pre ++ a :: b :: rest) !! n = Some a ∧
  (pre ++ a :: b :: rest) !! S n = Some b ∧
  slice_from (n + 2) (pre ++ a :: b :: rest) = rest.
Proof.
  intros ->. split_and!.
  - by apply list_lookup_middle.
  - replace (pre ++ a :: b :: rest) with ((pre ++ [a]) ++ b :: rest)
      by (by rewrite <- app_assoc).
    apply list_lookup_middle. rewrite length_app. simpl. lia.
  - unfold slice_from.
    replace (pre ++ a :: b :: rest) with ((pre ++ [a; b]) ++ rest)
      by (by rewrite <- app_assoc).
    apply drop_app_length'. rewrite length_app. simpl. lia.
Qed.


End comment_scans.

Section define_results.

Import Items Define.

Variable makeDefinitionRange : Parser → string → list ascii → Range.
Variable positiveRange : nat → nat → nat → Range.

Abbreviation define := (readDefine makeDefinitionRange positiveRange).


(** X15. A define with a block comment that closes on its line, the
    text before the comment and the text behind it holding no quote and
    no slash, within the cap on iterations. The comment runs to the
    last asterisk and slash of the line; the value is the text before
    the comment followed by the text behind it, and the description is
    the text of the comment without its trailing blanks. No further
    line is read. *)
Theorem readDefine_block_comment (parser : Parser) (m : RegExpMatchArray)
    (v c w : list ascii) :
  plain v → plain w →
  (∀ x, x ∈ c → is_line_terminator x = false) →
  length v + length w + 2 ≤ iteration_cap →
  ∃ item,
    define parser m
      (match0 m ++ v ++ "/"%char :: "*"%char :: c
       ++ "*"%char :: "/"%char :: w)
    = {| lines := lines parser; lineNb := lineNb parser;
         filePath := filePath parser; IsBuiltIn := IsBuiltIn parser;
         fileItems :=
           Repository.map_set (match1 m) (OfDefine item) (fileItems parser) |} ∧
    define_name item = match1 m ∧ value item = v ++ w ∧
    description item = trimEnd c.
Proof.
  intros Hv Hw Hc Hcap. unfold readDefine.
  set (tail := c ++ "*"%char :: "/"%char :: w).
  set (line := match0 m ++ v ++ "/"%char :: "*"%char :: tail).
  replace iteration_cap
    with (length v + S (S (length w
            + (iteration_cap - (length v + length w + 2))))) by lia.
  rewrite (scan_text_run v _ _ (match0 m) ("/"%char :: "*"%char :: tail));
    [|done | done | done | by apply plain_text].
  destruct (lookup_pair (match0 m ++ v) "/"%char "*"%char tail
              (length v + length (match0 m))) as (H1 & H2 & H3).
  { rewrite length_app. lia. }
  rewrite <- app_assoc in H1, H2, H3.
  rewrite scan_open_comment; try done.
  assert (length line
          = length v + length (match0 m) + 2 + length c + 2 + length w)
    as Hlen.
  { unfold line, tail. rewrite !length_app. simpl. rewrite length_app.
    simpl. lia. }
  rewrite (scan_close_comment _ _ (length c) (length c + 2)).
  2:{ done. }
  2:{ simpl. fold line. lia. }
  2:{ change (end_comment_match
                (slice_from (length v + length (match0 m) + 2) line)
              = Some (length c, length c + 2)).
      unfold line. rewrite H3.
      apply end_comment_match_close; [done | by apply plain_no_slash]. }
  rewrite (scan_text_run w _ _
             (match0 m ++ v ++ "/"%char :: "*"%char :: c
              ++ ["*"%char; "/"%char]) []).
  2:{ done. }
  2:{ simpl. unfold line, tail. rewrite app_nil_r.
      by rewrite <- !app_assoc; simpl; rewrite <- !app_assoc. }
  2:{ simpl. rewrite !length_app. simpl. rewrite length_app. simpl. lia. }
  2:{ simpl. by apply plain_text. }
  rewrite scan_end by (simpl; fold line; lia).
  eexists. split; [reflexivity|].
  split_and!; [done | done |].
  change (trimEnd (slice (length v + length (match0 m) + 2)
                     (length v + length (match0 m) + 2 + length c) line)
          = trimEnd c).
  f_equal. unfold slice. fold (slice_from (length v + length (match0 m) + 2) line).
  unfold line. rewrite H3.
  replace (length v + length (match0 m) + 2 + length c
           - (length v + length (match0 m) + 2)) with (length c) by lia.
  unfold tail. by rewrite take_app_length.
Qed.


End define_results.

Section line_account.

Import Items Define.

(** The lines left and the line counter through the loop: the lines
    left are the last ones of those there were, and the counter has
    gone up by one for each line taken, and by one more when the
    function returns from inside the loop. *)
Lemma scan_line_account (budget : nat) : ∀ st,
  match scan budget st with
  | Exit st' =>
      rest_lines st' `suffix_of` rest_lines st ∧
      cur_lineNb st' + length (rest_lines st')
      = cur_lineNb st + length (rest_lines st)
  | Abort st' =>
      rest_lines st' = [] ∧
      cur_lineNb st' = S (cur_lineNb st + length (rest_lines st))
  end.
Proof.
  induction budget as [|budget IH]; intros st; [done|].
  cbn [scan]. destruct (cur_line st !! i st) as [c|]; [|done].
  repeat match goal with
         | |- context [if ?b then _ else _] => destruct b
         end;
    try exact (IH _); try done.
  - destruct (end_comment_match _) as [[len1 len0]|]; [exact (IH _)|].
    destruct (rest_lines st) as [|next more] eqn:Hrest.
    + simpl. split; [done | lia].
    + match goal with |- context [scan budget ?s] => pose proof (IH s) as H end.
      destruct (scan budget _) as [st'|st']; simpl in *.
      * destruct H as [Hsuffix Hcount]. split; [by apply suffix_cons_r | lia].
      * destruct H as [Hnil Hcount]. split; [done | lia].
Qed.

End line_account.

(** X17. readDefine takes lines from the front of the remaining lines
    and keeps the line counter in step. Either it registers the define
    under its name, and the counter has gone up by the number of lines
    taken; or it leaves the table as it was, having taken all the lines,
    and the counter has gone up by one more than their number. The
    other names of the table keep what they had in both cases, and the
    path and the built-in mark of the parser are untouched. *)
Theorem readDefine_accounts
    (makeDefinitionRange :
       Define.Parser → string → list ascii → Items.Range)
    (positiveRange : nat → nat → nat → Items.Range)
    (parser : Define.Parser) (m : Define.RegExpMatchArray)
    (line : list ascii) :
  let parser' :=
    Define.readDefine makeDefinitionRange positiveRange parser m line in
  Define.lines parser' `suffix_of` Define.lines parser ∧
  Define.filePath parser' = Define.filePath parser ∧
  Define.IsBuiltIn parser' = Define.IsBuiltIn parser ∧
  (∀ k, k ≠ Define.match1 m →
        Repository.map_get k (Define.fileItems parser')
        = Repository.map_get k (Define.fileItems parser)) ∧
  ((∃ item,
      Repository.map_get (Define.match1 m) (Define.fileItems parser')
      = Some (Define.OfDefine item) ∧
      Define.define_name item = Define.match1 m ∧
      Define.define_filePath item = Define.filePath parser ∧
      Define.lineNb parser' + length (Define.lines parser')
      = Define.lineNb parser + length (Define.lines parser))
   ∨ (Define.fileItems parser' = Define.fileItems parser ∧
      Define.lines parser' = [] ∧
      Define.lineNb parser'
      = S (Define.lineNb parser + length (Define.lines parser)))).
Proof.
  intros parser'. unfold parser', Define.readDefine.
  pose proof (scan_line_account Define.iteration_cap
                (Define.initial parser m line)) as H.
  destruct (Define.scan _ _) as [st'|st']; simpl in *.
  - destruct H as [Hsuffix Hcount]. split_and!; try done.
    + intros k Hk. by apply map_get_set_ne.
    + left. eexists. split; [apply map_get_set_eq|]. done.
  - destruct H as [Hnil Hcount]. split_and!; try done.
    + rewrite Hnil. apply suffix_nil.
    + right. done.
Qed.

Section checks.

Import Define.

(** Checks by evaluation, for given texts. *)
Lemma plain_check (v : list ascii) :
  forallb (λ c, bool_decide (c ≠ dquote ∧ c ≠ "'"%char ∧ c ≠ "/"%char)) v
  = true → plain v.
Proof.
  intros H c Hc%list_elem_of_In.
  pose proof (proj1 (forallb_forall _ _) H c Hc) as Hb.
  by apply bool_decide_eq_true in Hb.
Qed.

Lemma no_line_terminator_check (c : list ascii) :
  forallb (λ x, negb (is_line_terminator x)) c = true →
  ∀ x, x ∈ c → is_line_terminator x = false.
Proof.
  intros H x Hx%list_elem_of_In.
  pose proof (proj1 (forallb_forall _ _) H x Hx) as Hb.
  by apply negb_true_iff in Hb.
Qed.

End checks.


Lemma readDefine_block_comment_witness :
  ∃ item,
    Define.fileItems
      (Define.readDefine Define.Sample.makeDefinitionRange
         Define.Sample.positiveRange
         (Define.Sample.parser [Define.Sample.text "next"])
         Define.Sample.defines_X
         (Define.Sample.text "#define X 5 /* five */ 6"))
    = [("X", Define.OfDefine item)] ∧
    Define.value item = Define.Sample.text " 5  6" ∧
    Define.description item = Define.Sample.text " five".
Proof.
  destruct (readDefine_block_comment
              Define.Sample.makeDefinitionRange Define.Sample.positiveRange
              (Define.Sample.parser [Define.Sample.text "next"])
              Define.Sample.defines_X
              (Define.Sample.text " 5 ") (Define.Sample.text " five ")
              (Define.Sample.text " 6"))
    as (item & Hres & _ & Hvalue & Hdesc).
  - apply plain_check. vm_compute. reflexivity.
  - apply plain_check. vm_compute. reflexivity.
  - apply no_line_terminator_check. vm_compute. reflexivity.
  - apply Nat.leb_le. vm_compute. reflexivity.
  - exists item. split; [|split; [exact Hvalue | exact Hdesc]].
    change (Define.Sample.text "#define X 5 /* five */ 6")
      with (Define.match0 Define.Sample.defines_X ++ Define.Sample.text " 5 "
            ++ "/"%char :: "*"%char :: Define.Sample.text " five "
            ++ "*"%char :: "/"%char :: Define.Sample.text " 6").
    by rewrite Hres.
Defined.


(** X18. resolve_import records every import, found on disk or not: it
    appends one include behind those of the table, with the mark it was
    given, and leaves the completions and the identity of the table
    alone. An import that is not relative and is not found in the
    include folder beside the file is recorded under the built-in
    scheme, whatever the folder of the file. *)
Theorem resolve_import_records
    (existsSync : string → bool) (dirname : string → string)
    (join3 : string → string → string → string)
    (resolve2 : string → string → string) (resolve1 : string → string)
    (URI_file : string → string) (fsPath : string → string)
    (file : string) (relative IsBuiltIn : bool)
    (fc : Repository.FileCompletions) :
  let fc' :=
    Repository.resolve_import existsSync dirname join3 resolve2 resolve1
      URI_file fsPath file relative IsBuiltIn fc in
  ∃ u,
    Repository.includes fc'
    = Repository.includes fc
      ++ [{| Repository.uri := u; Repository.IsBuiltIn := IsBuiltIn |}] ∧
    Repository.completions fc' = Repository.completions fc ∧
    Repository.file_uri fc' = Repository.file_uri fc ∧
    (relative = false →
     existsSync
       (join3 (dirname (fsPath (Repository.file_uri fc))) "include/"
          (file +:+ ".inc")) = false →
     u = "file://__sourcemod_builtin/" +:+ file +:+ ".inc").
Proof.
  intros fc'. subst fc'. unfold Repository.resolve_import.
  destruct relative; simpl.
  - destruct (existsSync _); eexists; by split_and!.
  - destruct (existsSync _) eqn:He; eexists; by split_and!.
Qed.

(** ** A define whose literal holds an escaped quote *)

Section escaped_quote.

Import Items Define.

Variable makeDefinitionRange : Parser → string → list ascii → Range.
Variable positiveRange : nat → nat → nat → Range.

(** C3 at the inputs that break it. The value of the define is a
    literal in double quotes that holds a double quote behind a
    backslash and, further on, two slashes: the line is the match, text
    [mid] without quote or slash, then the literal, made of the opening
    quote, [s1] without double quote, a backslash and a double quote,
    [s2] without quote or slash, the two slashes, [t] and the closing
    quote. The loop has no case for the backslash: the quote behind it
    closes the literal, the two slashes are read outside any literal,
    the value stops before them and what follows them, closing quote
    included, is the description. *)
Theorem readDefine_escaped_quote (parser : Parser) (m : RegExpMatchArray)
    (mid s1 s2 t : list ascii) :
  plain mid → dquote ∉ s1 → plain s2 →
  length mid + length s1 + length s2 + 3 < iteration_cap →
  ∃ item,
    readDefine makeDefinitionRange positiveRange parser m
      (match0 m ++ mid ++ dquote :: s1
       ++ DefinitionProvider.backslash :: dquote :: s2
       ++ "/"%char :: "/"%char :: t ++ [dquote])
    = {| lines := lines parser; lineNb := lineNb parser;
         filePath := filePath parser; IsBuiltIn := IsBuiltIn parser;
         fileItems :=
           Repository.map_set (match1 m) (OfDefine item) (fileItems parser) |} ∧
    define_name item = match1 m ∧
    value item
    = mid ++ dquote :: s1 ++ DefinitionProvider.backslash :: dquote :: s2 ∧
    description item = t ++ [dquote].
Proof.
  intros Hmid Hs1 Hs2 Hcap. unfold readDefine.
  assert (match0 m ++ mid ++ dquote :: s1
          ++ DefinitionProvider.backslash :: dquote :: s2
          ++ "/"%char :: "/"%char :: t ++ [dquote]
          = match0 m ++ mid ++ dquote :: (s1 ++ [DefinitionProvider.backslash])
            ++ dquote :: s2 ++ "/"%char :: "/"%char :: t ++ [dquote]) as ->
    by (by rewrite <- (app_assoc s1)).
  set (s := s1 ++ [DefinitionProvider.backslash]).
  set (tail := s2 ++ "/"%char :: "/"%char :: t ++ [dquote]).
  assert (dquote ∉ s) as Hs.
  { unfold s. rewrite elem_of_app, list_elem_of_singleton.
    intros [?|?]; [done | discriminate]. }
  replace iteration_cap
    with (length mid
          + S (length s
               + S (length s2
                    + S (iteration_cap
                         - (length mid + length s1 + length s2 + 4)))))
    by (unfold s; rewrite length_app; simpl; lia).
  rewrite (scan_text_run mid _ _ (match0 m) (dquote :: s ++ dquote :: tail));
    [|done | done | done | by apply plain_text].
  rewrite (scan_quoted _ _ (match0 m ++ mid) s tail dquote);
    [|by left | done | done | done | done
     | by simpl; rewrite <- app_assoc
     | by simpl; rewrite length_app; lia].
  rewrite (scan_text_run s2 _ _ (match0 m ++ mid ++ dquote :: s ++ [dquote])
             ("/"%char :: "/"%char :: t ++ [dquote]));
    [|done
     | by simpl; unfold tail; rewrite <- !app_assoc; simpl;
          rewrite <- !app_assoc
     | by simpl; rewrite !length_app; simpl; rewrite length_app; simpl; lia
     | by apply plain_text].
  destruct (lookup_pair (match0 m ++ mid ++ dquote :: s ++ [dquote] ++ s2)
              "/"%char "/"%char (t ++ [dquote])
              (length s2
               + (length (dquote :: s ++ [dquote])
                  + (length mid + length (match0 m)))))
    as (H1 & H2 & H3).
  { rewrite !length_app. simpl. rewrite !length_app. simpl. lia. }
  assert ((match0 m ++ mid ++ dquote :: s ++ [dquote] ++ s2)
          ++ "/"%char :: "/"%char :: t ++ [dquote]
          = match0 m ++ mid ++ dquote :: s ++ dquote :: tail) as Hline.
  { unfold tail. rewrite <- !app_assoc. simpl. by rewrite <- !app_assoc. }
  rewrite Hline in H1, H2, H3.
  rewrite scan_line_comment; try done.
  eexists. split; [reflexivity|]. simpl.
  split_and!; [done | | exact H3].
  unfold s. rewrite <- !app_assoc. simpl. by rewrite <- !app_assoc.
Qed.

End escaped_quote.

Lemma readDefine_escaped_quote_witness :
  ∃ item,
    Define.fileItems
      (Define.readDefine Define.Sample.makeDefinitionRange
         Define.Sample.positiveRange (Define.Sample.parser [])
         Define.Sample.defines_X
         (Define.Sample.text "#define X "
          ++ Define.dquote :: DefinitionProvider.backslash :: Define.dquote
          :: Define.Sample.text "http://a" ++ [Define.dquote]))
    = [("X", Define.OfDefine item)] ∧
    Define.value item
    = Define.Sample.text " "
      ++ Define.dquote :: DefinitionProvider.backslash :: Define.dquote
      :: Define.Sample.text "http:" ∧
    Define.description item = Define.Sample.text "a" ++ [Define.dquote].
Proof.
  destruct (readDefine_escaped_quote
              Define.Sample.makeDefinitionRange Define.Sample.positiveRange
              (Define.Sample.parser []) Define.Sample.defines_X
              (Define.Sample.text " ") [] (Define.Sample.text "http:")
              (Define.Sample.text "a"))
    as (item & Hres & _ & Hvalue & Hdesc).
  - apply plain_check. vm_compute. reflexivity.
  - apply not_elem_of_nil.
  - apply plain_check. vm_compute. reflexivity.
  - apply Nat.ltb_lt. vm_compute. reflexivity.
  - exists item. split; [|split; [exact Hvalue | exact Hdesc]].
    change (Define.Sample.text "#define X "
            ++ Define.dquote :: DefinitionProvider.backslash :: Define.dquote
            :: Define.Sample.text "http://a" ++ [Define.dquote])
      with (Define.match0 Define.Sample.defines_X ++ Define.Sample.text " "
            ++ Define.dquote :: []
            ++ DefinitionProvider.backslash :: Define.dquote
            :: Define.Sample.text "http:"
            ++ "/"%char :: "/"%char :: Define.Sample.text "a"
            ++ [Define.dquote]).
    by rewrite Hres.
Defined.

(** ** The constructor of a methodmap *)

Section constructor_entry.

Import Items.

Variable ItemsRepository : Type.
Variable getAllItems : ItemsRepository → string → list SPItem.
Variable lineAt : TextDocument → nat → option (list ascii).
Variable isMethodCall : list ascii → Position → bool.
Variable getTypeOfVariable :
  list ascii → Position → list SPItem → option SPItem → option SPItem →
  option string * list string.
Variable getAllInheritances : SPItem → list SPItem → list SPItem.
Variable toCompletionItem : SPItem → option SPItem → option CompletionItem.
Variable itemsRepo : ItemsRepository.
Variable document : TextDocument.
Variable position : Position.

(** The test under the comment about the constructor looks for the item
    itself among the types of the receiver. An item that has passed the
    test of its kind is a method or a property, and the types are
    methodmaps: the item is none of them, and the test removes nothing.
    [ref] being the identity of an item, a type with the [ref] of the
    item is the item. *)
Lemma constructor_test_removes_nothing (variableTypes : list SPItem)
    (item : SPItem) :
  kind item ∈ MP →
  (∀ t, t ∈ variableTypes → kind t = KClass ∨ kind t = KStruct) →
  (∀ t, t ∈ variableTypes → ref t = ref item → t = item) →
  includes_ref variableTypes (Some (ref item)) = false.
Proof.
  intros Hkind Htypes Hident.
  apply not_true_iff_false. intros (t & Ht & Href)%includes_ref_spec.
  injection Href as Href.
  assert (t = item) as -> by (by apply Hident).
  unfold MP in Hkind.
  destruct (Htypes item Ht) as [Hk|Hk]; rewrite Hk in Hkind; set_solver.
Qed.

(** C6 at the inputs that break it. The call is a method call on a
    receiver whose type is the methodmap [receiverType]; [constructor]
    is the constructor of that methodmap, a method of it that has its
    name, and its static marker agrees with the call, as it does for a
    constructor without the word static behind an instance. The types
    of the chain are methodmaps. The entry of the constructor is among
    the completions. *)
Theorem getCompletionListFromPosition_constructor
    (text : list ascii) (variableType : option string) (words : list string)
    (receiverType constructor : SPItem) (entry : CompletionItem) :
  let allItems := getAllItems itemsRepo (doc_uri document) in
  let lastFunc := getLastFunc position document allItems in
  let lastType :=
    getLastEnumStructNameOrMethodMap position (doc_fsPath document) allItems in
  let chain := getAllInheritances receiverType allItems in
  lineAt document (line position) = Some text →
  isMethodCall text position = true →
  getTypeOfVariable text position allItems lastFunc lastType
  = (variableType, words) →
  find_type allItems variableType = Some receiverType →
  kind receiverType = KClass →
  receiverType ∈ chain →
  (∀ t, t ∈ chain → kind t = KClass) →
  (∀ t, t ∈ chain → ref t = ref constructor → t = constructor) →
  constructor ∈ allItems →
  kind constructor = KMethod →
  name constructor = name receiverType →
  parent constructor = Some (ref receiverType) →
  static_test (detail constructor) = names_methodmap allItems words →
  toCompletionItem constructor lastFunc = Some entry →
  ∃ items,
    getCompletionListFromPosition ItemsRepository getAllItems lineAt
      isMethodCall getTypeOfVariable getAllInheritances toCompletionItem
      itemsRepo document position
    = Return items ∧
    entry ∈ items.
Proof.
  intros allItems lastFunc lastType chain.
  subst allItems lastFunc lastType chain.
  intros Hline Hcall Htype Hfind Hclass
    Hself Hchain Hident Hin Hkind Hname Hparent Hstatic Hentry.
  eexists. split.
  - unfold getCompletionListFromPosition.
    rewrite Hline, Hcall. simpl.
    rewrite Htype, Hfind.
    rewrite bool_decide_eq_true_2 by done.
    rewrite getMethodItems_eq. reflexivity.
  - apply list_elem_of_omap. exists constructor. split; [|exact Hentry].
    apply list_elem_of_filter. split; [|exact Hin].
    unfold is_method_item.
    rewrite constructor_test_removes_nothing;
      [| rewrite Hkind; unfold MP; set_solver
       | by intros t Ht; left; apply Hchain
       | exact Hident].
    rewrite Hstatic, Hkind, Hparent.
    rewrite (proj2 (includes_ref_spec _ (Some (ref receiverType))))
      by eauto.
    rewrite bool_decide_eq_true_2 by (unfold MP; set_solver).
    by destruct (names_methodmap _ words).
Qed.

End constructor_entry.

Lemma getCompletionListFromPosition_constructor_witness :
  let d := Items.Sample.document "obj." in
  let p := Items.Sample.at_ 0 4 in
  Items.find_type Items.Sample.constructed (Some "Foo")
  = Some Items.Sample.Foo ∧
  Items.name Items.Sample.Foo_Foo = Items.name Items.Sample.Foo ∧
  Items.parent Items.Sample.Foo_Foo = Some (Items.ref Items.Sample.Foo) ∧
  ∃ items,
    Items.Sample.complete Items.Sample.constructed d p = Return items ∧
    plain_item "Foo" KMethod ∈ items.
Proof.
  intros d p.
  assert (∀ t, t ∈ [Items.Sample.Foo; Items.Sample.Base] →
            Items.kind t = KClass) as Hchain.
  { intros t Ht.
    repeat (apply elem_of_cons in Ht as [->|Ht]; [reflexivity|]).
    by apply elem_of_nil in Ht. }
  assert (∀ t, t ∈ [Items.Sample.Foo; Items.Sample.Base] →
            Items.ref t = Items.ref Items.Sample.Foo_Foo →
            t = Items.Sample.Foo_Foo) as Hident.
  { intros t Ht.
    repeat (apply elem_of_cons in Ht as [->|Ht]; [discriminate|]).
    by apply elem_of_nil in Ht. }
  split_and!; [reflexivity | reflexivity | reflexivity |].
  apply (getCompletionListFromPosition_constructor (list Items.SPItem)
           Items.Sample.getAllItems Items.Sample.lineAt
           Items.Sample.isMethodCall Items.Sample.getTypeOfVariable
           Items.Sample.getAllInheritances Items.Sample.toCompletionItem
           Items.Sample.constructed d p (getText d) (Some "Foo") ["obj"]
           Items.Sample.Foo Items.Sample.Foo_Foo (plain_item "Foo" KMethod));
    try reflexivity.
  - vm_compute. apply list_elem_of_here.
  - exact Hchain.
  - exact Hident.
  - vm_compute. do 7 apply list_elem_of_further. apply list_elem_of_here.
Defined.

(** The request of the specification with the constructor among the
    items: behind [obj.] the constructor Foo is offered. *)
Example complete_offers_constructor :
  Items.Sample.complete Items.Sample.constructed (Items.Sample.document "obj.")
    (Items.Sample.at_ 0 4)
  = Return [plain_item "Close" KMethod; plain_item "Get" KMethod;
            plain_item "Foo" KMethod].
Proof. vm_compute. reflexivity. Qed.

(** ** A define line that ends with the opening of a comment *)

Section comment_at_line_end.

Import Items Define.

Variable makeDefinitionRange : Parser → string → list ascii → Range.
Variable positiveRange : nat → nat → nat → Range.

(** X19. A define line that ends right behind the opening of a block
    comment, before which the value has no quote and no slash: the loop
    ends with the line, the item is registered with that value and an
    empty description, and no line is taken from the parser, so that
    the lines of the comment are left to be read after the define. *)
Theorem readDefine_comment_opens_at_line_end (parser : Parser)
    (m : RegExpMatchArray) (v : list ascii) :
  plain v → length v + 1 < iteration_cap →
  ∃ item,
    readDefine makeDefinitionRange positiveRange parser m
      (match0 m ++ v ++ ["/"%char; "*"%char])
    = {| lines := lines parser; lineNb := lineNb parser;
         filePath := filePath parser; IsBuiltIn := IsBuiltIn parser;
         fileItems :=
           Repository.map_set (match1 m) (OfDefine item) (fileItems parser) |} ∧
    define_name item = match1 m ∧ value item = v ∧ description item = [].
Proof.
  intros Hv Hcap. unfold readDefine.
  replace iteration_cap
    with (length v + S (S (iteration_cap - length v - 2))) by lia.
  rewrite (scan_text_run v _ _ (match0 m) ["/"%char; "*"%char]);
    [|done | done | done | by apply plain_text].
  destruct (lookup_pair (match0 m ++ v) "/"%char "*"%char []
              (length v + length (match0 m))) as (H1 & H2 & _).
  { rewrite length_app. lia. }
  rewrite <- app_assoc in H1, H2.
  rewrite scan_open_comment; try done.
  rewrite scan_end.
  - eexists. split; [reflexivity|]. done.
  - simpl. rewrite !length_app. simpl. lia.
Qed.

End comment_at_line_end.

Lemma readDefine_comment_opens_at_line_end_witness :
  ∃ item,
    Define.readDefine Define.Sample.makeDefinitionRange
      Define.Sample.positiveRange
      (Define.Sample.parser [Define.Sample.text " five */"])
      Define.Sample.defines_X (Define.Sample.text "#define X 5 /*")
    = {| Define.lines := [Define.Sample.text " five */"]; Define.lineNb := 7;
         Define.filePath := "/project/main.sp"; Define.IsBuiltIn := false;
         Define.fileItems := [("X", Define.OfDefine item)] |} ∧
    Define.value item = Define.Sample.text " 5 " ∧
    Define.description item = [].
Proof.
  destruct (readDefine_comment_opens_at_line_end
              Define.Sample.makeDefinitionRange Define.Sample.positiveRange
              (Define.Sample.parser [Define.Sample.text " five */"])
              Define.Sample.defines_X (Define.Sample.text " 5 "))
    as (item & Hres & _ & Hvalue & Hdesc).
  - apply plain_check. vm_compute. reflexivity.
  - apply Nat.ltb_lt. vm_compute. reflexivity.
  - exists item. split; [|split; [exact Hvalue | exact Hdesc]].
    change (Define.Sample.text "#define X 5 /*")
      with (Define.match0 Define.Sample.defines_X ++ Define.Sample.text " 5 "
            ++ ["/"%char; "*"%char]).
    by rewrite Hres.
Defined.
